(** * virtmem: a demand-paging address translator (Project3/Part-I/virtmem.c)

    A shallow embedding of the translation loop of [virtmem.c]: the TLB kept
    as a circular array, the page table, the frame counter, the FIFO page
    queue, the LRU time stamps, the per-address body of [main] and the final
    report, followed by the properties of the specification.

    Conventions.
    - C [int]s are modelled by [Z].  The counters of the program
      ([time_count], [total_addresses], [tlbindex], ...) grow by at most one
      per input line, see [counters_bounded]: the model is exact for inputs
      of fewer than 2^31 lines, beyond which the C program overflows a
      signed counter.
    - [unsigned char] values are reduced modulo 256 where the program
      converts to that type ([u8]).
    - Arrays are lists; [load] and [store] make an access outside the array
      (undefined in C) visible: the read yields a default, the write is
      dropped.  [in_bounds] shows that the program never gets there.
    - The memory-mapped backing file is a function from byte offsets to
      [signed char] values; the content of the freshly [malloc]ed queue
      array is an arbitrary function [heap]. *)

From Stdlib Require Import ZArith Lia Uint63 PrimFloat FloatOps SpecFloat.
From Stdlib Require Import String DecimalString.
From stdpp Require Import base list.

Local Open Scope Z_scope.

(** ** Constants *)

Definition TLB_SIZE : Z := 16.
Definition PAGES : Z := 256.
Definition PAGE_MASK : Z := 255.
Definition FRAMES : Z := 64.
Definition PAGE_SIZE : Z := 256.
Definition OFFSET_BITS : Z := 8.
Definition OFFSET_MASK : Z := 255.
Definition LOGICAL_MEMORY_SIZE : Z := PAGES * PAGE_SIZE.
Definition PHYSICAL_MEMORY_SIZE : Z := FRAMES * PAGE_SIZE.

(** Start value of the running minimum in the LRU scan. *)
Definition LRU_START : Z := 10000000.

(** ** Array accesses and integer conversions *)

Definition u8 (x : Z) : Z := x mod 256.

Definition load {A} (d : A) (a : list A) (i : Z) : A :=
  if 0 <=? i then default d (a !! Z.to_nat i) else d.

Definition store {A} (a : list A) (i : Z) (v : A) : list A :=
  if 0 <=? i then <[Z.to_nat i := v]> a else a.

(** [memcpy (dest + d, src + s, n)]: [n] bytes of [src] from offset [s]
    replace the bytes of [dest] from offset [d]. *)
Definition memcpy (dest : list Z) (d : Z) (src : Z -> Z) (s : Z) (n : Z) : list Z :=
  if (0 <=? d) && (d + n <=? Z.of_nat (length dest)) then
    take (Z.to_nat d) dest ++ ((fun o => src (s + o)) <$> seqZ 0 n)
      ++ drop (Z.to_nat (d + n)) dest
  else dest.

(** ** The TLB *)

Record tlbentry := { logical : Z; physical : Z }.

Definition max (a b : Z) : Z := if a >? b then a else b.

(** The loop of [search_tlb], [n] iterations from index [i]. *)
Fixpoint tlb_scan (tlb : list tlbentry) (logical_page : Z) (i : Z) (n : nat) : Z :=
  match n with
  | O => -1
  | S n' =>
      let entry := load {| logical := 0; physical := 0 |} tlb (Z.rem i TLB_SIZE) in
      if logical entry =? logical_page then physical entry
      else tlb_scan tlb logical_page (i + 1) n'
  end.

Definition search_tlb (tlb : list tlbentry) (tlbindex : Z) (logical_page : Z) : Z :=
  let lo := max (tlbindex - TLB_SIZE) 0 in
  tlb_scan tlb (u8 logical_page) lo (Z.to_nat (tlbindex - lo)).

Definition add_to_tlb (tlb : list tlbentry) (tlbindex : Z) (l p : Z)
  : list tlbentry * Z :=
  (store tlb (Z.rem tlbindex TLB_SIZE) {| logical := u8 l; physical := u8 p |},
   tlbindex + 1).

(** ** The FIFO page queue *)

Module PageQueue.
Record t := mk
  { queueArray : list Z; size : Z; numberOfFrames : Z; head : Z; tail : Z }.
End PageQueue.
Abbreviation PageQueue := PageQueue.t.

Definition initQueue (heap : nat -> Z) (numberOfFrames : Z) : PageQueue :=
  {| PageQueue.queueArray := heap <$> seq 0 (Z.to_nat numberOfFrames);
     PageQueue.size := 0;
     PageQueue.numberOfFrames := numberOfFrames;
     PageQueue.head := 0;
     PageQueue.tail := numberOfFrames - 1 |}.

Definition enqueue (q : PageQueue) (data : Z) : PageQueue :=
  if negb (PageQueue.numberOfFrames q =? PageQueue.size q) then
    let tail' := Z.rem (PageQueue.tail q + 1) (PageQueue.numberOfFrames q) in
    {| PageQueue.queueArray := store (PageQueue.queueArray q) tail' data;
       PageQueue.size := PageQueue.size q + 1;
       PageQueue.numberOfFrames := PageQueue.numberOfFrames q;
       PageQueue.head := PageQueue.head q;
       PageQueue.tail := tail' |}
  else q.

Definition dequeue (q : PageQueue) : Z * PageQueue :=
  if negb (PageQueue.size q =? 0) then
    let element := load 0 (PageQueue.queueArray q) (PageQueue.head q) in
    (element,
     {| PageQueue.queueArray := PageQueue.queueArray q;
        PageQueue.size := PageQueue.size q - 1;
        PageQueue.numberOfFrames := PageQueue.numberOfFrames q;
        PageQueue.head := Z.rem (PageQueue.head q + 1) (PageQueue.numberOfFrames q);
        PageQueue.tail := PageQueue.tail q |})
  else (-1, q).

(** ** The LRU time stamps *)

(** The loop of [get_least_recently_used_element], [n] iterations from
    index [i] with the running minimum [leastRecent] found at index
    [leastRecentUsedElementIndex]. *)
Fixpoint lru_scan (recentUsages : list Z) (i : Z) (n : nat)
    (leastRecent leastRecentUsedElementIndex : Z) : Z :=
  match n with
  | O => leastRecentUsedElementIndex
  | S n' =>
      if load 0 recentUsages i <? leastRecent
      then lru_scan recentUsages (i + 1) n' (load 0 recentUsages i) i
      else lru_scan recentUsages (i + 1) n' leastRecent leastRecentUsedElementIndex
  end.

Definition get_least_recently_used_element (recentUsages : list Z) : Z :=
  lru_scan recentUsages 0 (Z.to_nat FRAMES) LRU_START 0.

(** ** The state of a run: the globals and the locals of [main] *)

Record state := mkState
  { tlb : list tlbentry;
    tlbindex : Z;
    pagetable : list Z;
    main_memory : list Z;
    queue : PageQueue;
    recentUsages : list Z;
    total_addresses : Z;
    tlb_hits : Z;
    page_faults : Z;
    free_page : Z;
    time_count : Z }.

(** What one iteration prints, with the intermediate values of the
    iteration: the page and offset, the frame used, which branch was taken
    and the frame returned by the replacement policy when it was asked. *)
Record event := mkEvent
  { ev_logical_address : Z;
    ev_physical_address : Z;
    ev_value : Z;
    ev_logical_page : Z;
    ev_offset : Z;
    ev_physical_page : Z;
    ev_tlb_hit : bool;
    ev_fault : bool;
    ev_victim : option Z }.

(** The loop that releases the current owner of a frame (lines 251-257):
    [for (k = 0; k < PAGES; k++) if (pagetable[k] == physical_page) {...; break;}] *)
Fixpoint clear_owner (pagetable : list Z) (physical_page : Z) (k : Z) (n : nat)
  : list Z :=
  match n with
  | O => pagetable
  | S n' =>
      if load 0 pagetable k =? physical_page then store pagetable k (-1)
      else clear_owner pagetable physical_page (k + 1) n'
  end.

(** The TLB array, a global, starts zeroed. *)
Definition tlb_zero : list tlbentry :=
  replicate (Z.to_nat TLB_SIZE) {| logical := 0; physical := 0 |}.

Section Run.

(** The backing store and the initial content of the queue array. *)
Variable backing : Z -> Z.
Variable heap : nat -> Z.

(** The state when the loop starts (lines 182-207): page table and time
    stamps at [-1], empty queue, zeroed globals and counters. *)
Definition init : state :=
  {| tlb := tlb_zero;
     tlbindex := 0;
     pagetable := replicate (Z.to_nat PAGES) (-1);
     main_memory := replicate (Z.to_nat PHYSICAL_MEMORY_SIZE) 0;
     queue := initQueue heap FRAMES;
     recentUsages := replicate (Z.to_nat FRAMES) (-1);
     total_addresses := 0;
     tlb_hits := 0;
     page_faults := 0;
     free_page := 0;
     time_count := 0 |}.

(** The page-fault branch of [main] (lines 230-259): choose the frame,
    copy the page, release the old owner of the frame and bind the page. *)
Definition handle_fault (rp : Z) (s : state) (logical_page : Z)
  : state * Z * option Z :=
  let '(physical_page, free_page', queue', victim) :=
    if free_page s <? FRAMES then
      (free_page s, u8 (free_page s + 1), queue s, None)
    else if rp =? 0 then
      let '(element, q) := dequeue (queue s) in
      (element, free_page s, q, Some element)
    else
      let f := get_least_recently_used_element (recentUsages s) in
      (f, free_page s, queue s, Some f) in
  let memory' :=
    memcpy (main_memory s) (physical_page * PAGE_SIZE)
           backing (logical_page * PAGE_SIZE) PAGE_SIZE in
  let pagetable' :=
    store (clear_owner (pagetable s) physical_page 0 (Z.to_nat PAGES))
          logical_page physical_page in
  ({| tlb := tlb s;
      tlbindex := tlbindex s;
      pagetable := pagetable';
      main_memory := memory';
      queue := queue';
      recentUsages := recentUsages s;
      total_addresses := total_addresses s;
      tlb_hits := tlb_hits s;
      page_faults := page_faults s + 1;
      free_page := free_page';
      time_count := time_count s |},
   physical_page, victim).

(** From the TLB probe to the insertion into the TLB (lines 216-263): the
    frame of the page, with the flags "TLB hit" and "page fault" and the
    victim selected, if any. *)
Definition resolve (rp : Z) (s : state) (logical_page : Z)
  : state * Z * bool * bool * option Z :=
  let physical_page := search_tlb (tlb s) (tlbindex s) logical_page in
  if negb (physical_page =? -1) then
    ({| tlb := tlb s;
        tlbindex := tlbindex s;
        pagetable := pagetable s;
        main_memory := main_memory s;
        queue := queue s;
        recentUsages := recentUsages s;
        total_addresses := total_addresses s;
        tlb_hits := tlb_hits s + 1;
        page_faults := page_faults s;
        free_page := free_page s;
        time_count := time_count s |},
     physical_page, true, false, None)
  else
    let physical_page := load 0 (pagetable s) logical_page in
    let '(s1, physical_page, fault, victim) :=
      if physical_page =? -1 then
        let '(s1, f, victim) := handle_fault rp s logical_page in
        (s1, f, true, victim)
      else (s, physical_page, false, None) in
    let '(tlb', tlbindex') :=
      add_to_tlb (tlb s1) (tlbindex s1) logical_page physical_page in
    ({| tlb := tlb';
        tlbindex := tlbindex';
        pagetable := pagetable s1;
        main_memory := main_memory s1;
        queue := queue s1;
        recentUsages := recentUsages s1;
        total_addresses := total_addresses s1;
        tlb_hits := tlb_hits s1;
        page_faults := page_faults s1;
        free_page := free_page s1;
        time_count := time_count s1 |},
     physical_page, false, fault, victim).

(** The update of the replacement state at the end of every iteration
    (lines 265-272). *)
Definition on_frame_used (rp : Z) (s : state) (physical_page : Z) : state :=
  if rp =? 0 then
    {| tlb := tlb s;
       tlbindex := tlbindex s;
       pagetable := pagetable s;
       main_memory := main_memory s;
       queue := enqueue (queue s) physical_page;
       recentUsages := recentUsages s;
       total_addresses := total_addresses s;
       tlb_hits := tlb_hits s;
       page_faults := page_faults s;
       free_page := free_page s;
       time_count := time_count s |}
  else
    {| tlb := tlb s;
       tlbindex := tlbindex s;
       pagetable := pagetable s;
       main_memory := main_memory s;
       queue := queue s;
       recentUsages := store (recentUsages s) physical_page (time_count s);
       total_addresses := total_addresses s;
       tlb_hits := tlb_hits s;
       page_faults := page_faults s;
       free_page := free_page s;
       time_count := time_count s |}.

(** The counters bumped at the top of the loop body (lines 210-211). *)
Definition tick (s : state) : state :=
  {| tlb := tlb s;
     tlbindex := tlbindex s;
     pagetable := pagetable s;
     main_memory := main_memory s;
     queue := queue s;
     recentUsages := recentUsages s;
     total_addresses := total_addresses s + 1;
     tlb_hits := tlb_hits s;
     page_faults := page_faults s;
     free_page := free_page s;
     time_count := time_count s + 1 |}.

(** One iteration of the [while] loop of [main] (lines 208-278) on the
    address read. *)
Definition step (rp : Z) (s : state) (logical_address : Z) : state * event :=
  let s0 := tick s in
  let offset := Z.land logical_address OFFSET_MASK in
  let logical_page := Z.land (Z.shiftr logical_address OFFSET_BITS) PAGE_MASK in
  let '(s1, physical_page, hit, fault, victim) := resolve rp s0 logical_page in
  let s2 := on_frame_used rp s1 physical_page in
  let physical_address := Z.lor (Z.shiftl physical_page OFFSET_BITS) offset in
  let value := load 0 (main_memory s2) (physical_page * PAGE_SIZE + offset) in
  (s2,
   {| ev_logical_address := logical_address;
      ev_physical_address := physical_address;
      ev_value := value;
      ev_logical_page := logical_page;
      ev_offset := offset;
      ev_physical_page := physical_page;
      ev_tlb_hit := hit;
      ev_fault := fault;
      ev_victim := victim |}).

(** The state after the whole input, and the lines printed on the way. *)
Fixpoint exec (rp : Z) (s : state) (input : list Z) : state :=
  match input with
  | [] => s
  | a :: rest => exec rp (fst (step rp s a)) rest
  end.

Fixpoint trace (rp : Z) (s : state) (input : list Z) : list event :=
  match input with
  | [] => []
  | a :: rest => snd (step rp s a) :: trace rp (fst (step rp s a)) rest
  end.

End Run.

(** ** The final report *)

(** [x / (1. * y)] on two [int] counters, in IEEE-754 double precision. *)
Definition rate (x y : Z) : float :=
  PrimFloat.div (PrimFloat.of_uint63 (Uint63.of_Z x))
                (PrimFloat.mul PrimFloat.one (PrimFloat.of_uint63 (Uint63.of_Z y))).

Record report := mkReport
  { rep_total_addresses : Z;
    rep_page_faults : Z;
    rep_page_fault_rate : float;
    rep_tlb_hits : Z;
    rep_tlb_hit_rate : float }.

Definition final_report (s : state) : report :=
  {| rep_total_addresses := total_addresses s;
     rep_page_faults := page_faults s;
     rep_page_fault_rate := rate (page_faults s) (total_addresses s);
     rep_tlb_hits := tlb_hits s;
     rep_tlb_hit_rate := rate (tlb_hits s) (total_addresses s) |}.

(** What [printf ("%.3f", x)] writes for a [double] (the C library, not
    the program): the decimal digits of [x] rounded to three places, or
    the text for a NaN or an infinity, whose spelling and sign C leaves to
    the platform. *)
Inductive printed :=
  | Digits (text : string)
  | NotANumber
  | Infinite (negative : bool).

(** [num / den] rounded to the nearest integer, ties to even. *)
Definition round_half_even (num den : Z) : Z :=
  let q := num / den in
  let r := num mod den in
  if 2 * r <? den then q
  else if den <? 2 * r then q + 1
  else if Z.even q then q else q + 1.

(** The number of thousandths nearest to the exact value [m * 2^e]. *)
Definition thousandths (m : positive) (e : Z) : Z :=
  if 0 <=? e then Z.pos m * 2 ^ e * 1000
  else round_half_even (Z.pos m * 1000) (2 ^ (- e)).

(** The decimal digits of a natural number, of one digit, and of the
    three places after the point. *)
Definition decimal (n : Z) : string :=
  DecimalString.NilZero.string_of_uint (N.to_uint (Z.to_N n)).

Definition digit (n : Z) : string := decimal (n mod 10).

Definition fraction3 (n : Z) : string :=
  (digit (n / 100) ++ digit (n / 10) ++ digit n)%string.

Definition sign_text (negative : bool) : string :=
  if negative then "-"%string else ""%string.

(** The conversion [%.3f]. *)
Definition format_3f (x : float) : printed :=
  match Prim2SF x with
  | S754_nan => NotANumber
  | S754_infinity s => Infinite s
  | S754_zero s => Digits (sign_text s ++ "0.000")
  | S754_finite s m e =>
      let t := thousandths m e in
      Digits (sign_text s ++ decimal (t / 1000) ++ "." ++ fraction3 (t mod 1000))
  end.

(** * Specification *)

(** ** The page table *)

(** No two distinct logical pages with a frame share that frame. *)
Definition one_owner (pt : list Z) : Prop :=
  forall p1 p2, 0 <= p1 < PAGES -> 0 <= p2 < PAGES -> p1 <> p2 ->
    load 0 pt p1 <> -1 -> load 0 pt p2 <> -1 -> load 0 pt p1 <> load 0 pt p2.

(** The page table has its [PAGES] entries, with one owner per frame. *)
Definition pagetable_ok (pt : list Z) : Prop :=
  length pt = Z.to_nat PAGES /\ one_owner pt.

(** ** The TLB *)

(** The TLB after a sequence of calls [add_to_tlb (l, p)], from the
    initial (zeroed) array. *)
Definition tlb_after (hist : list (Z * Z)) : list tlbentry * Z :=
  foldl (fun st e => add_to_tlb (fst st) (snd st) (fst e) (snd e))
        (tlb_zero, 0) hist.

(** The entry that a call [add_to_tlb (l, p)] writes. *)
Definition stored (e : Z * Z) : tlbentry :=
  {| logical := u8 (fst e); physical := u8 (snd e) |}.

(** The probe in the words of the specification: among the most recent
    [min (TLB_SIZE, number of inserts)] entries inserted, taken in
    insertion order, the frame of the first one whose page matches, or
    the mark [-1]. *)
Fixpoint first_match (logical_page : Z) (entries : list tlbentry) : Z :=
  match entries with
  | [] => -1
  | e :: rest =>
      if logical e =? logical_page then physical e
      else first_match logical_page rest
  end.

Definition probe_spec (hist : list tlbentry) (logical_page : Z) : Z :=
  let inserts := length hist in
  let scanned := Nat.min (Z.to_nat TLB_SIZE) inserts in
  first_match logical_page (drop (inserts - scanned) hist).

(** The iteration missed the TLB. *)
Definition is_tlb_miss (e : event) : Prop := ev_tlb_hit e = false.

#[global] Instance is_tlb_miss_dec e : Decision (is_tlb_miss e).
Proof. unfold is_tlb_miss. apply _. Defined.

(** The calls [add_to_tlb (logical_page, physical_page)] of a run: one
    per iteration that missed the TLB. *)
Definition tlb_inserts (t : list event) : list (Z * Z) :=
  (fun e => (ev_logical_page e, ev_physical_page e)) <$> filter is_tlb_miss t.

(** ** The replacement policies *)

(** Frame [r] carries the least time stamp, and is the first to do so. *)
Definition least_recent (u : list Z) (r : Z) : Prop :=
  0 <= r < FRAMES
  /\ (forall j, 0 <= j < FRAMES -> load 0 u r <= load 0 u j)
  /\ (forall j, 0 <= j < r -> load 0 u r < load 0 u j).

(** The queue after [n] iterations under FIFO: it holds [min (n, FRAMES)]
    entries, all of them frame numbers written by [enqueue], in the slots
    from [head] up to [tail] (circularly). *)
Definition queue_ok (n : Z) (q : PageQueue) : Prop :=
  PageQueue.numberOfFrames q = FRAMES
  /\ length (PageQueue.queueArray q) = Z.to_nat FRAMES
  /\ 0 <= PageQueue.head q < FRAMES
  /\ PageQueue.size q = Z.min n FRAMES
  /\ PageQueue.tail q
     = (PageQueue.head q + PageQueue.size q + (FRAMES - 1)) mod FRAMES
  /\ forall j, 0 <= j < PageQueue.size q ->
       0 <= load 0 (PageQueue.queueArray q) ((PageQueue.head q + j) mod FRAMES)
         < FRAMES.

(** The queue of a FIFO run whose first [FRAMES] iterations all fault:
    slot [j] holds frame [j]; while the frames fill up the queue grows
    with them, afterwards it is full and its head is the number of faults
    modulo [FRAMES]. *)
Definition fifo_ordered (s : state) : Prop :=
  let q := queue s in
  let n := total_addresses s in
  let f := page_faults s in
  PageQueue.numberOfFrames q = FRAMES
  /\ length (PageQueue.queueArray q) = Z.to_nat FRAMES
  /\ 0 <= n
  /\ ((n < FRAMES /\ f = n /\ free_page s = n
       /\ PageQueue.head q = 0 /\ PageQueue.size q = n
       /\ PageQueue.tail q = (n + (FRAMES - 1)) mod FRAMES
       /\ forall j, 0 <= j < n -> load 0 (PageQueue.queueArray q) j = j)
      \/ (FRAMES <= n /\ FRAMES <= f /\ free_page s = FRAMES
          /\ PageQueue.head q = f mod FRAMES /\ PageQueue.size q = FRAMES
          /\ PageQueue.tail q = (f + (FRAMES - 1)) mod FRAMES
          /\ forall j, 0 <= j < FRAMES -> load 0 (PageQueue.queueArray q) j = j)).

(** ** Well-formed states *)

(** What holds of the state between two iterations. *)
Record wf (rp : Z) (s : state) : Prop := mkWf
  { wf_tlb_length : length (tlb s) = Z.to_nat TLB_SIZE;
    wf_tlb : Forall (fun e => 0 <= physical e < FRAMES) (tlb s);
    wf_tlbindex : 0 <= tlbindex s;
    wf_pagetable_length : length (pagetable s) = Z.to_nat PAGES;
    wf_pagetable : Forall (fun f => f = -1 \/ 0 <= f < FRAMES) (pagetable s);
    wf_main_memory : length (main_memory s) = Z.to_nat PHYSICAL_MEMORY_SIZE;
    wf_recentUsages_length : length (recentUsages s) = Z.to_nat FRAMES;
    wf_recentUsages : Forall (fun t => -1 <= t <= time_count s) (recentUsages s);
    wf_free_page : 0 <= free_page s <= FRAMES;
    wf_free_total : free_page s <= total_addresses s;
    wf_time_count : time_count s = total_addresses s;
    wf_queue : rp = 0 -> queue_ok (total_addresses s) (queue s) }.

(** ** Page faults and page loads *)

(** The iteration took the page-fault branch. *)
Definition is_fault (e : event) : Prop := ev_fault e = true.

#[global] Instance is_fault_dec e : Decision (is_fault e).
Proof. unfold is_fault. apply _. Defined.

(** Frame [f] holds the bytes of page [p] of the backing store. *)
Definition frame_holds (backing : Z -> Z) (s : state) (f p : Z) : Prop :=
  forall o, 0 <= o < PAGE_SIZE ->
    load 0 (main_memory s) (f * PAGE_SIZE + o) = backing (p * PAGE_SIZE + o).

(** The iteration loads a page into frame [f]. *)
Definition loads_into (f : Z) (e : event) : Prop :=
  ev_fault e = true /\ ev_physical_page e = f.

(** The index of the last iteration of [t] that loaded a page into
    frame [f]. *)
Fixpoint last_load_from (i : nat) (t : list event) (f : Z) (acc : option nat)
  : option nat :=
  match t with
  | [] => acc
  | e :: t' =>
      last_load_from (S i) t' f
        (if ev_fault e && (ev_physical_page e =? f) then Some i else acc)
  end.

(** [last_load_from] over the whole trace. *)
Definition last_load (t : list event) (f : Z) : option nat :=
  last_load_from 0 t f None.

(** ** Inputs and states of the concrete runs *)

(** Page 0 twice, then the pages 1 to 65: 64 faults fill the frames, the
    last two faults evict. *)
Definition fifo_failing_input : list Z :=
  [0; 0] ++ ((fun k => k * PAGE_SIZE) <$> seqZ 1 65).

(** The state [k] TLB hits on page 0 (frame 0) after [s], under LRU. *)
Definition hit_state (s : state) (k : Z) : state :=
  {| tlb := tlb s;
     tlbindex := tlbindex s;
     pagetable := pagetable s;
     main_memory := main_memory s;
     queue := queue s;
     recentUsages := store (recentUsages s) 0 (time_count s + k);
     total_addresses := total_addresses s + k;
     tlb_hits := tlb_hits s + k;
     page_faults := page_faults s;
     free_page := free_page s;
     time_count := time_count s + k |}.

(** Ten million times page 0, the pages 1 to 63, and page 0 again: all
    the frames are in use, frame 0 was used last. *)
Definition lru_long_prefix : list Z :=
  0 :: replicate (Z.to_nat (LRU_START - 1)) 0
    ++ ((fun k => k * PAGE_SIZE) <$> seqZ 1 63) ++ [0].

(** ... and then page 64, which faults with every frame in use. *)
Definition lru_failing_input : list Z := lru_long_prefix ++ [64 * PAGE_SIZE].

(** A backing store and a heap content to run the program on. *)
Definition sample_backing (i : Z) : Z := (i * 37 + 11) mod 256 - 128.
Definition sample_heap (i : nat) : Z := -1.

(** ** Statistics and printed lines *)

(** The iteration hit the TLB. *)
Definition is_tlb_hit (e : event) : Prop := ev_tlb_hit e = true.

#[global] Instance is_tlb_hit_dec e : Decision (is_tlb_hit e).
Proof. unfold is_tlb_hit. apply _. Defined.

(** A value of C's [signed char]. *)
Definition signed_char (v : Z) : Prop := -128 <= v <= 127.

(** ** Frames and their owners *)

(** The frames in use are the frames below [free_page], one per page
    fault until they run out; the page table refers to these frames only,
    and each of them is the frame of some page. *)
Definition frames_owned (s : state) : Prop :=
  0 <= page_faults s
  /\ free_page s = Z.min (page_faults s) FRAMES
  /\ Forall (fun f => f = -1 \/ 0 <= f < free_page s) (pagetable s)
  /\ forall f, 0 <= f < free_page s ->
       exists p, 0 <= p < PAGES /\ load 0 (pagetable s) p = f.

(** Every page with a frame has its bytes in that frame. *)
Definition memory_coherent (backing : Z -> Z) (s : state) : Prop :=
  forall p, 0 <= p < PAGES -> load 0 (pagetable s) p <> -1 ->
    frame_holds backing s (load 0 (pagetable s) p) p.

(** ** The live entries of the TLB *)

(** The entries that [search_tlb] scans after the iterations [t]: the
    last [min (TLB_SIZE, number of inserts)] entries inserted, oldest
    first. *)
Definition tlb_live (t : list event) : list tlbentry :=
  let h := stored <$> tlb_inserts t in
  drop (length h - Nat.min (Z.to_nat TLB_SIZE) (length h)) h.

(** A live entry agrees with the page table: its page has the frame of
    the entry, or no frame any more. *)
Definition tlb_entry_ok (pt : list Z) (e : tlbentry) : Prop :=
  0 <= logical e < PAGES /\ 0 <= physical e < FRAMES
  /\ (load 0 pt (logical e) = physical e \/ load 0 pt (logical e) = -1).

(** ** Last uses *)

(** The number (from [i]) of the last iteration of [t] that used frame
    [f], or [acc] when none did. *)
Fixpoint last_use_from (i : Z) (t : list event) (f : Z) (acc : Z) : Z :=
  match t with
  | [] => acc
  | e :: t' =>
      last_use_from (i + 1) t' f (if ev_physical_page e =? f then i else acc)
  end.

(** The number, counting the iterations from 1, of the last iteration
    that used frame [f]; [-1] when the frame was never used. *)
Definition last_use (t : list event) (f : Z) : Z := last_use_from 1 t f (-1).

(** ** The page queue as a bounded queue *)

(** A queue as [initQueue], [enqueue] and [dequeue] keep it: the array
    has [numberOfFrames] slots, [head] is a slot, [size] is at most
    [numberOfFrames], and [tail] is the slot of the last entry. *)
Definition queue_wf (q : PageQueue) : Prop :=
  let n := PageQueue.numberOfFrames q in
  0 < n
  /\ length (PageQueue.queueArray q) = Z.to_nat n
  /\ 0 <= PageQueue.head q < n
  /\ 0 <= PageQueue.size q <= n
  /\ PageQueue.tail q = (PageQueue.head q + PageQueue.size q + (n - 1)) mod n.

(** The entries of the queue, oldest first. *)
Definition queue_contents (q : PageQueue) : list Z :=
  (fun j => load 0 (PageQueue.queueArray q)
                 ((PageQueue.head q + j) mod PageQueue.numberOfFrames q))
    <$> seqZ 0 (PageQueue.size q).

(** ** The content of the heap *)

(** State [s] with another queue. *)
Definition set_queue (s : state) (q : PageQueue) : state :=
  {| tlb := tlb s;
     tlbindex := tlbindex s;
     pagetable := pagetable s;
     main_memory := main_memory s;
     queue := q;
     recentUsages := recentUsages s;
     total_addresses := total_addresses s;
     tlb_hits := tlb_hits s;
     page_faults := page_faults s;
     free_page := free_page s;
     time_count := time_count s |}.

(** Two queues of the same capacity with the same entries, whatever
    their arrays hold in the slots not in use. *)
Definition queue_sim (q1 q2 : PageQueue) : Prop :=
  queue_wf q1 /\ queue_wf q2
  /\ PageQueue.numberOfFrames q1 = PageQueue.numberOfFrames q2
  /\ queue_contents q1 = queue_contents q2.

(** * Properties *)

(** Boolean comparisons of the context as propositions, for [lia]. *)
Ltac zbool :=
  repeat match goal with
    | H : (_ <=? _) = true |- _ => apply Z.leb_le in H
    | H : (_ <=? _) = false |- _ => apply Z.leb_gt in H
    | H : (_ <? _) = true |- _ => apply Z.ltb_lt in H
    | H : (_ <? _) = false |- _ => apply Z.ltb_ge in H
    | H : (_ =? _) = true |- _ => apply Z.eqb_eq in H
    | H : (_ =? _) = false |- _ => apply Z.eqb_neq in H
    | H : (_ >? _) = _ |- _ => rewrite Z.gtb_ltb in H
    | H : negb _ = true |- _ => apply negb_true_iff in H
    | H : negb _ = false |- _ => apply negb_false_iff in H
    | H : (_ && _) = true |- _ => apply andb_true_iff in H; destruct H
    end.

(** The branches of one iteration, with the loops kept folded. *)
Ltac step_cases :=
  unfold step, resolve, handle_fault, on_frame_used, tick, add_to_tlb;
  cbn -[clear_owner memcpy search_tlb get_least_recently_used_element
        dequeue enqueue store load Z.to_nat Z.mul Z.add Z.land Z.lor
        Z.shiftl Z.shiftr Z.ltb Z.eqb Z.leb u8];
  repeat case_match; simplify_eq; zbool;
  cbn -[clear_owner memcpy search_tlb get_least_recently_used_element
        dequeue enqueue store load Z.to_nat Z.mul Z.add Z.land Z.lor
        Z.shiftl Z.shiftr Z.ltb Z.eqb Z.leb u8] in *.

Set Default Proof Using "Type".

(** ** Arrays *)

Lemma length_store {A} (a : list A) i v : length (store a i v) = length a.
Proof. unfold store. destruct (0 <=? i); [apply length_insert | done]. Qed.

Lemma load_store_eq {A} (d : A) a i v :
  0 <= i < Z.of_nat (length a) -> load d (store a i v) i = v.
Proof.
  intros Hi. unfold load, store.
  destruct (0 <=? i) eqn:E; zbool; [|lia].
  rewrite list_lookup_insert_eq by lia. done.
Qed.

Lemma load_store_ne {A} (d : A) a i j v :
  i <> j -> load d (store a i v) j = load d a j.
Proof.
  intros Hij. unfold load, store.
  destruct (0 <=? j) eqn:Ej; [|done].
  destruct (0 <=? i) eqn:Ei; [|done]. zbool.
  rewrite list_lookup_insert_ne by lia. done.
Qed.

Lemma load_store {A} (d : A) a i j v :
  load d (store a i v) j
  = if decide (i = j /\ 0 <= i < Z.of_nat (length a)) then v else load d a j.
Proof.
  case_decide as H.
  - destruct H as [-> H]. by apply load_store_eq.
  - destruct (decide (i = j)) as [->|Hne]; [|by apply load_store_ne].
    unfold load, store. destruct (0 <=? j) eqn:E; [|done]. zbool.
    rewrite list_insert_ge by lia. done.
Qed.

Lemma load_lookup {A} (d : A) a i x :
  a !! i = Some x -> load d a (Z.of_nat i) = x.
Proof.
  intros H. unfold load. destruct (0 <=? Z.of_nat i) eqn:E; zbool; [|lia].
  by rewrite Nat2Z.id, H.
Qed.

Lemma load_Forall {A} (P : A -> Prop) (d : A) a i :
  Forall P a -> 0 <= i < Z.of_nat (length a) -> P (load d a i).
Proof.
  intros Ha Hi. unfold load. destruct (0 <=? i) eqn:E; zbool; [|lia].
  destruct (lookup_lt_is_Some_2 a (Z.to_nat i)) as [x Hx]; [lia|].
  rewrite Hx. simpl. by eapply Forall_lookup_1.
Qed.

Lemma store_Forall {A} (P : A -> Prop) a i v :
  Forall P a -> P v -> Forall P (store a i v).
Proof.
  intros Ha Hv. unfold store. destruct (0 <=? i); [|done].
  by apply Forall_insert.
Qed.

Lemma store_store {A} (a : list A) i v w : store (store a i v) i w = store a i w.
Proof.
  unfold store. destruct (0 <=? i); [|done]. apply list_insert_insert_eq.
Qed.

Lemma u8_small x : 0 <= x < 256 -> u8 x = x.
Proof. intros Hx. unfold u8. by apply Z.mod_small. Qed.

Lemma length_memcpy dest d src s n :
  0 <= n -> length (memcpy dest d src s n) = length dest.
Proof.
  intros Hn. unfold memcpy.
  destruct (_ && _) eqn:E; [|done]. zbool.
  rewrite !length_app, length_take, length_fmap, length_seqZ, length_drop. lia.
Qed.

Lemma load_memcpy_inside (dest : list Z) d src s n o :
  0 <= d -> d + n <= Z.of_nat (length dest) -> 0 <= o < n ->
  load 0 (memcpy dest d src s n) (d + o) = src (s + o).
Proof.
  intros Hd Hn Ho. unfold memcpy, load.
  destruct (0 <=? d) eqn:E1; zbool; [|lia].
  destruct (d + n <=? Z.of_nat (length dest)) eqn:E2; zbool; [|lia].
  destruct (0 <=? d + o) eqn:E3; zbool; [|lia]. cbn [andb].
  rewrite lookup_app_r by (rewrite length_take; lia).
  rewrite length_take.
  replace (Z.to_nat (d + o) - Z.to_nat d `min` length dest)%nat
    with (Z.to_nat o) by lia.
  rewrite lookup_app_l by (rewrite length_fmap, length_seqZ; lia).
  rewrite list_lookup_fmap, lookup_seqZ_lt by lia. cbn.
  f_equal. lia.
Qed.

Lemma load_memcpy_outside (dest : list Z) d src s n i :
  0 <= n -> i < d \/ d + n <= i ->
  load 0 (memcpy dest d src s n) i = load 0 dest i.
Proof.
  intros Hn Hi. unfold memcpy, load.
  destruct (0 <=? d) eqn:E1; zbool; [|done].
  destruct (d + n <=? Z.of_nat (length dest)) eqn:E2; zbool; [|done].
  destruct (0 <=? i) eqn:E3; zbool; [|done]. cbn [andb].
  destruct Hi as [Hi|Hi].
  - rewrite lookup_app_l by (rewrite length_take; lia).
    by rewrite lookup_take_lt by lia.
  - rewrite lookup_app_r by (rewrite length_take; lia).
    rewrite lookup_app_r by (rewrite length_take, length_fmap, length_seqZ; lia).
    rewrite lookup_drop, length_take, length_fmap, length_seqZ.
    do 2 f_equal. lia.
Qed.

Lemma load_store_same (a : list Z) i j :
  load 0 a i = i -> load 0 (store a i i) j = load 0 a j.
Proof.
  intros Hi. rewrite load_store. case_decide as H; [|done].
  destruct H as [-> _]. by rewrite Hi.
Qed.

(** ** Offsets and pages *)

Lemma land_shiftl_mask x : Z.land (Z.shiftl x OFFSET_BITS) OFFSET_MASK = 0.
Proof.
  change OFFSET_MASK with (Z.ones 8). change OFFSET_BITS with 8.
  rewrite Z.land_ones by lia. rewrite Z.shiftl_mul_pow2 by lia.
  apply Z_mod_mult.
Qed.

Lemma lor_offset_mask x a :
  Z.land (Z.lor (Z.shiftl x OFFSET_BITS) (Z.land a OFFSET_MASK)) OFFSET_MASK
  = Z.land a OFFSET_MASK.
Proof.
  rewrite Z.land_lor_distr_l, land_shiftl_mask, Z.lor_0_l.
  by rewrite <- Z.land_assoc, Z.land_diag.
Qed.

Lemma logical_page_range a :
  0 <= Z.land (Z.shiftr a OFFSET_BITS) PAGE_MASK < PAGES.
Proof.
  change PAGE_MASK with (Z.ones 8). rewrite Z.land_ones by lia.
  unfold PAGES. apply Z.mod_pos_bound. lia.
Qed.

Lemma offset_range a : 0 <= Z.land a OFFSET_MASK < PAGE_SIZE.
Proof.
  change OFFSET_MASK with (Z.ones 8). rewrite Z.land_ones by lia.
  unfold PAGE_SIZE. apply Z.mod_pos_bound. lia.
Qed.

Lemma split_address a :
  Z.land (Z.shiftr a OFFSET_BITS) PAGE_MASK * PAGE_SIZE + Z.land a OFFSET_MASK
  = a mod LOGICAL_MEMORY_SIZE.
Proof.
  change PAGE_MASK with (Z.ones 8). change OFFSET_MASK with (Z.ones 8).
  change OFFSET_BITS with 8.
  rewrite !Z.land_ones, Z.shiftr_div_pow2 by lia.
  change LOGICAL_MEMORY_SIZE with 65536. change PAGE_SIZE with 256.
  change (2 ^ 8) with 256.
  Z.to_euclidean_division_equations; lia.
Qed.

(** ** The page table *)

Lemma length_clear_owner pt pp k n : length (clear_owner pt pp k n) = length pt.
Proof.
  revert k. induction n as [|n IH]; intros k; simpl; [done |].
  destruct (_ =? _); [apply length_store | apply IH].
Qed.

(** The loop either finds no owner, or clears the first owner from [k]. *)
Lemma clear_owner_cases pt pp k n :
  clear_owner pt pp k n = pt
  \/ exists m, k <= m < k + Z.of_nat n /\ load 0 pt m = pp
               /\ clear_owner pt pp k n = store pt m (-1).
Proof.
  revert k. induction n as [|n IH]; intros k; simpl; [by left |].
  destruct (load 0 pt k =? pp) eqn:E; zbool.
  - right. exists k. split; [lia | split; [lia | done]].
  - destruct (IH (k + 1)) as [->|(m & Hm & Hl & ->)]; [by left |].
    right. exists m. split; [lia | done].
Qed.

(** An owner inside the scanned range makes the loop stop at or before it. *)
Lemma clear_owner_found pt pp k n j :
  k <= j < k + Z.of_nat n -> load 0 pt j = pp ->
  exists m, k <= m <= j /\ load 0 pt m = pp
            /\ clear_owner pt pp k n = store pt m (-1).
Proof.
  revert k. induction n as [|n IH]; intros k Hj Hl; simpl; [lia |].
  destruct (load 0 pt k =? pp) eqn:E; zbool.
  - exists k. split; [lia | split; [lia | done]].
  - assert (k <> j) by (intros ->; lia).
    destruct (IH (k + 1)) as (m & Hm & Hlm & ->); [lia | done |].
    exists m. split; [lia | done].
Qed.

(** Once the owner is released, no page is bound to the frame. *)
Lemma clear_owner_unbound pt pp j :
  pagetable_ok pt -> pp <> -1 -> 0 <= j < PAGES ->
  load 0 (clear_owner pt pp 0 (Z.to_nat PAGES)) j <> pp.
Proof.
  intros [Hlen Hone] Hpp Hj Heq.
  assert (Hpt : load 0 pt j = pp).
  { destruct (clear_owner_cases pt pp 0 (Z.to_nat PAGES))
      as [Hc|(m & Hm & Hl & Hc)]; rewrite Hc in Heq; [done |].
    rewrite load_store in Heq. case_decide; [lia | done]. }
  destruct (clear_owner_found pt pp 0 (Z.to_nat PAGES) j) as (m & Hm & Hl & Hc);
    [unfold PAGES in *; lia | done |].
  rewrite Hc, load_store in Heq.
  case_decide as Hd; [lia |].
  assert (m <> j) by (intros ->; apply Hd; unfold PAGES in *; lia).
  apply (Hone m j); unfold PAGES in *; try lia.
Qed.

Lemma clear_owner_other pt pp k n j :
  load 0 pt j <> pp -> load 0 (clear_owner pt pp k n) j = load 0 pt j.
Proof.
  intros Hne.
  destruct (clear_owner_cases pt pp k n) as [->|(m & Hm & Hl & ->)]; [done |].
  apply load_store_ne. by intros ->.
Qed.

(** Binding a page after releasing the owner of the frame keeps the
    page table injective on its bound entries. *)
Lemma bind_after_clear pt lp pp :
  pagetable_ok pt -> 0 <= lp < PAGES -> load 0 pt lp = -1 ->
  pagetable_ok (store (clear_owner pt pp 0 (Z.to_nat PAGES)) lp pp).
Proof.
  intros Hok Hlp Habs. pose proof Hok as [Hlen Hone].
  split; [by rewrite length_store, length_clear_owner |].
  set (pt1 := clear_owner pt pp 0 (Z.to_nat PAGES)).
  assert (Hl1 : length pt1 = Z.to_nat PAGES)
    by (unfold pt1; by rewrite length_clear_owner).
  assert (Hsub : forall j, load 0 pt1 j <> -1 -> load 0 pt1 j = load 0 pt j).
  { intros j Hj. unfold pt1 in *.
    destruct (clear_owner_cases pt pp 0 (Z.to_nat PAGES)) as [Hc|(m & Hm & Hl & Hc)];
      rewrite Hc in *; [done |].
    rewrite load_store in *. case_decide; [done | done]. }
  intros p1 p2 H1 H2 Hne.
  rewrite !load_store.
  assert (Hin : forall p, 0 <= p < PAGES -> 0 <= p < Z.of_nat (length pt1))
    by (intros p Hp; rewrite Hl1; unfold PAGES in *; lia).
  destruct (decide (pp = -1)) as [->|Hpp].
  - repeat case_decide; try done; try lia.
    intros N1 N2. rewrite (Hsub p1 N1), (Hsub p2 N2).
    apply Hone; try done; by rewrite <- Hsub.
  - repeat case_decide; try lia; intros N1 N2.
    + intros E. symmetry in E. by apply (clear_owner_unbound pt pp p2) in E.
    + by apply (clear_owner_unbound pt pp p1).
    + rewrite (Hsub p1 N1), (Hsub p2 N2).
      apply Hone; try done; by rewrite <- Hsub.
Qed.

Lemma clear_owner_Forall pt pp k n :
  Forall (fun f => f = -1 \/ 0 <= f < FRAMES) pt ->
  Forall (fun f => f = -1 \/ 0 <= f < FRAMES) (clear_owner pt pp k n).
Proof.
  intros Hpt.
  destruct (clear_owner_cases pt pp k n) as [->|(m & _ & _ & ->)]; [done |].
  apply store_Forall; [done | by left].
Qed.

(** ** The TLB *)

Lemma tlb_after_snoc hist e :
  tlb_after (hist ++ [e])
  = add_to_tlb (fst (tlb_after hist)) (snd (tlb_after hist)) (fst e) (snd e).
Proof. unfold tlb_after. by rewrite foldl_app. Qed.

(** The circular array holds the last [TLB_SIZE] inserts: insert number
    [i] sits in slot [i % TLB_SIZE] until insert [i + TLB_SIZE]. *)
Lemma tlb_after_slots hist :
  let n := Z.of_nat (length hist) in
  snd (tlb_after hist) = n
  /\ length (fst (tlb_after hist)) = Z.to_nat TLB_SIZE
  /\ forall i : nat, n - TLB_SIZE <= Z.of_nat i < n ->
       Some (load {| logical := 0; physical := 0 |} (fst (tlb_after hist))
                  (Z.rem (Z.of_nat i) TLB_SIZE))
       = stored <$> hist !! i.
Proof.
  induction hist as [|e hist IH] using rev_ind.
  - cbn. split; [done |]. split; [apply length_replicate | lia].
  - cbn zeta in IH. destruct IH as (Hidx & Hlen & Hslots).
    rewrite tlb_after_snoc. unfold add_to_tlb. cbn [fst snd].
    rewrite length_app. cbn [length]. rewrite Hidx.
    split; [lia |]. split; [by rewrite length_store |].
    intros i Hi.
    assert (Hmod : forall x, 0 <= x -> 0 <= Z.rem x TLB_SIZE < TLB_SIZE).
    { intros x Hx. rewrite Z.rem_mod_nonneg by (unfold TLB_SIZE; lia).
      apply Z.mod_pos_bound. unfold TLB_SIZE. lia. }
    destruct (decide (i = length hist)) as [->|Hne].
    + rewrite load_store_eq.
      * rewrite lookup_app_r by lia. by rewrite Nat.sub_diag.
      * rewrite Hlen. pose proof (Hmod (Z.of_nat (length hist))).
        unfold TLB_SIZE in *. lia.
    + rewrite load_store_ne.
      * rewrite lookup_app_l by lia. apply Hslots. lia.
      * rewrite !Z.rem_mod_nonneg by (unfold TLB_SIZE; lia).
        unfold TLB_SIZE in *. intros E.
        assert (Hd : (Z.of_nat (length hist) - Z.of_nat i) mod 16 = 0).
        { rewrite Zminus_mod, E, Z.sub_diag. done. }
        rewrite Z.mod_small in Hd by lia. lia.
Qed.

(** The loop of [search_tlb] over slots that hold the inserts [i], ...,
    [i + k - 1] finds the first match among these inserts. *)
Lemma tlb_scan_first_match (t : list tlbentry) (hist : list (Z * Z)) lp k i :
  (forall j : nat, (i <= j < i + k)%nat ->
     Some (load {| logical := 0; physical := 0 |} t (Z.rem (Z.of_nat j) TLB_SIZE))
     = stored <$> hist !! j) ->
  (i + k = length hist)%nat ->
  tlb_scan t lp (Z.of_nat i) k = first_match lp (drop i (stored <$> hist)).
Proof.
  revert i. induction k as [|k IH]; intros i Hslots Hlen.
  - rewrite drop_ge by (rewrite length_fmap; lia). done.
  - pose proof (Hslots i ltac:(lia)) as Hi.
    destruct (hist !! i) as [e|] eqn:He; [|done].
    cbn in Hi. injection Hi as Hi.
    rewrite (drop_S _ (stored e) i) by (by rewrite list_lookup_fmap, He).
    cbn [tlb_scan first_match]. rewrite Hi.
    destruct (logical (stored e) =? lp); [done |].
    replace (Z.of_nat i + 1) with (Z.of_nat (S i)) by lia.
    apply IH; [intros j Hj; apply Hslots; lia | lia].
Qed.

(** The probe of the circular array against the probe of the history. *)
Lemma search_tlb_after (hist : list (Z * Z)) (logical_page : Z) :
  search_tlb (fst (tlb_after hist)) (snd (tlb_after hist)) logical_page
  = probe_spec (stored <$> hist) (u8 logical_page).
Proof.
  destruct (tlb_after_slots hist) as (Hidx & Hlen & Hslots).
  unfold search_tlb, probe_spec. rewrite Hidx, length_fmap.
  set (n := length hist).
  set (lo := (n - Nat.min (Z.to_nat TLB_SIZE) n)%nat).
  assert (Hlo : max (Z.of_nat n - TLB_SIZE) 0 = Z.of_nat lo).
  { unfold max, lo, TLB_SIZE. rewrite Z.gtb_ltb.
    destruct (0 <? Z.of_nat n - 16) eqn:E; zbool; lia. }
  rewrite Hlo.
  apply tlb_scan_first_match.
  - intros j Hj. apply Hslots. fold n. unfold lo, TLB_SIZE in *. lia.
  - unfold lo, TLB_SIZE. fold n. lia.
Qed.

Lemma tlb_scan_range (t : list tlbentry) lp n : forall i,
  Forall (fun e => 0 <= physical e < FRAMES) t ->
  length t = Z.to_nat TLB_SIZE -> 0 <= i ->
  tlb_scan t lp i n = -1 \/ 0 <= tlb_scan t lp i n < FRAMES.
Proof.
  induction n as [|n IH]; intros i Ht Hlen Hi; cbn [tlb_scan]; [by left |].
  destruct (_ =? _).
  - right.
    apply (load_Forall (fun e => 0 <= physical e < FRAMES)); [done |].
    rewrite Hlen. unfold TLB_SIZE.
    rewrite Z.rem_mod_nonneg by lia.
    pose proof (Z.mod_pos_bound i 16). lia.
  - apply IH; [done | done | lia].
Qed.

Lemma search_tlb_range (t : list tlbentry) idx lp :
  Forall (fun e => 0 <= physical e < FRAMES) t ->
  length t = Z.to_nat TLB_SIZE ->
  search_tlb t idx lp = -1 \/ 0 <= search_tlb t idx lp < FRAMES.
Proof.
  intros Ht Hlen. unfold search_tlb. apply tlb_scan_range; [done | done |].
  unfold max. destruct (_ >? _) eqn:E; zbool; lia.
Qed.

(** ** The LRU scan *)

(** The loop from index [i] with running minimum [least] found at [idx]:
    either no time stamp of the range is below [least] and the result is
    [idx], or the result is the first index of the range with the least
    time stamp of the range, which is below [least]. *)
Lemma lru_scan_spec u n : forall i least idx,
  let r := lru_scan u i n least idx in
  ((forall j, i <= j < i + Z.of_nat n -> least <= load 0 u j) /\ r = idx)
  \/ (i <= r < i + Z.of_nat n
      /\ load 0 u r < least
      /\ (forall j, i <= j < i + Z.of_nat n -> load 0 u r <= load 0 u j)
      /\ (forall j, i <= j < r -> load 0 u r < load 0 u j)).
Proof.
  induction n as [|n IH]; intros i least idx; cbn zeta.
  - left. split; [lia | done].
  - cbn [lru_scan]. destruct (load 0 u i <? least) eqn:E; zbool.
    + specialize (IH (i + 1) (load 0 u i) i). cbn zeta in IH.
      destruct IH as [[Hall ->]|(Hr & Hlt & Hmin & Hfirst)]; right.
      * split; [lia |]. split; [done |]. split; [|lia].
        intros j Hj. destruct (decide (j = i)) as [->|]; [lia |].
        apply Hall. lia.
      * split; [lia |]. split; [lia |]. split.
        -- intros j Hj. destruct (decide (j = i)) as [->|]; [lia |].
           apply Hmin. lia.
        -- intros j Hj. destruct (decide (j = i)) as [->|]; [lia |].
           apply Hfirst. lia.
    + specialize (IH (i + 1) least idx). cbn zeta in IH.
      destruct IH as [[Hall ->]|(Hr & Hlt & Hmin & Hfirst)]; [left | right].
      * split; [|done].
        intros j Hj. destruct (decide (j = i)) as [->|]; [lia |].
        apply Hall. lia.
      * split; [lia |]. split; [lia |]. split.
        -- intros j Hj. destruct (decide (j = i)) as [->|]; [lia |].
           apply Hmin. lia.
        -- intros j Hj. destruct (decide (j = i)) as [->|]; [lia |].
           apply Hfirst. lia.
Qed.

Lemma lru_range u :
  0 <= get_least_recently_used_element u < FRAMES.
Proof.
  unfold get_least_recently_used_element.
  destruct (lru_scan_spec u (Z.to_nat FRAMES) 0 LRU_START 0) as [[_ ->]|(H & _)];
    unfold FRAMES in *; lia.
Qed.

(** With a time stamp below the start value, the scan finds the first
    frame of least time stamp. *)
Lemma lru_below_start u i :
  0 <= i < FRAMES -> load 0 u i < LRU_START ->
  least_recent u (get_least_recently_used_element u).
Proof.
  intros Hi Hlt. unfold get_least_recently_used_element.
  destruct (lru_scan_spec u (Z.to_nat FRAMES) 0 LRU_START 0)
    as [[Hall _]|(Hr & _ & Hmin & Hfirst)].
  - specialize (Hall i). unfold FRAMES in *. lia.
  - split; [unfold FRAMES in *; lia |]. split; [|done].
    intros j Hj. apply Hmin. unfold FRAMES in *. lia.
Qed.

(** With no time stamp below the start value, the scan keeps frame 0. *)
Lemma lru_all_above_start u :
  (forall i, 0 <= i < FRAMES -> LRU_START <= load 0 u i) ->
  get_least_recently_used_element u = 0.
Proof.
  intros Hall. unfold get_least_recently_used_element.
  destruct (lru_scan_spec u (Z.to_nat FRAMES) 0 LRU_START 0)
    as [[_ ->]|(Hr & Hlt & _)]; [done |].
  specialize (Hall (lru_scan u 0 (Z.to_nat FRAMES) LRU_START 0)).
  unfold FRAMES in *. lia.
Qed.

(** ** The FIFO queue *)

Lemma init_queue_ok heap : queue_ok 0 (initQueue heap FRAMES).
Proof.
  unfold queue_ok, initQueue. cbn [PageQueue.numberOfFrames PageQueue.queueArray
    PageQueue.head PageQueue.size PageQueue.tail].
  split; [done |]. split; [by rewrite length_fmap, length_seq |].
  repeat split; try done. all: intros; lia.
Qed.

(** An iteration without eviction: [enqueue] appends the frame while the
    queue is short of [FRAMES] entries, and does nothing afterwards. *)
Lemma enqueue_ok n q pp :
  0 <= n -> queue_ok n q -> 0 <= pp < FRAMES -> queue_ok (n + 1) (enqueue q pp).
Proof.
  intros Hn (Hnf & Hlen & Hhd & Hsz & Htl & Hslots) Hpp.
  unfold enqueue. rewrite Hnf, Hsz.
  destruct (FRAMES =? Z.min n FRAMES) eqn:E; zbool; cbn [negb].
  - assert (Hfull : FRAMES <= n) by lia.
    unfold queue_ok. rewrite Z.min_r in Hsz by lia.
    rewrite Z.min_r by lia. auto 10.
  - unfold queue_ok.
    cbn [PageQueue.numberOfFrames PageQueue.queueArray PageQueue.head
         PageQueue.size PageQueue.tail].
    rewrite length_store, Hsz in *.
    assert (Hn64 : n < FRAMES) by (unfold FRAMES in *; lia).
    rewrite Z.min_l in * by lia.
    assert (Ht : Z.rem (PageQueue.tail q + 1) FRAMES
                 = (PageQueue.head q + n) mod FRAMES).
    { rewrite Htl. unfold FRAMES in *.
      rewrite Z.rem_mod_nonneg; Z.to_euclidean_division_equations; lia. }
    rewrite Ht.
    repeat split; try done; try lia.
    + unfold FRAMES in *. Z.to_euclidean_division_equations; lia.
    + destruct (decide (j = n)) as [->|Hj].
      * rewrite load_store_eq; [lia |].
        rewrite Hlen. unfold FRAMES in *.
        Z.to_euclidean_division_equations; lia.
      * rewrite load_store_ne; [apply Hslots; lia |].
        unfold FRAMES in *. Z.to_euclidean_division_equations; lia.
    + destruct (decide (j = n)) as [->|Hj].
      * rewrite load_store_eq; [lia |].
        rewrite Hlen. unfold FRAMES in *.
        Z.to_euclidean_division_equations; lia.
      * rewrite load_store_ne; [apply Hslots; lia |].
        unfold FRAMES in *. Z.to_euclidean_division_equations; lia.
Qed.

(** An eviction: the queue is full, [dequeue] takes its first branch and
    returns a frame number, which [enqueue] puts back at the tail. *)
Lemma dequeue_enqueue_ok n q :
  FRAMES <= n -> queue_ok n q ->
  PageQueue.size q = FRAMES
  /\ fst (dequeue q) = load 0 (PageQueue.queueArray q) (PageQueue.head q)
  /\ 0 <= fst (dequeue q) < FRAMES
  /\ queue_ok (n + 1) (enqueue (snd (dequeue q)) (fst (dequeue q))).
Proof.
  intros Hn (Hnf & Hlen & Hhd & Hsz & Htl & Hslots).
  rewrite Z.min_r in Hsz by lia.
  assert (Hx : 0 <= load 0 (PageQueue.queueArray q) (PageQueue.head q) < FRAMES).
  { specialize (Hslots 0). rewrite Z.add_0_r, Z.mod_small in Hslots by lia.
    apply Hslots. unfold FRAMES in *. lia. }
  unfold dequeue. rewrite Hsz. change (negb (FRAMES =? 0)) with true.
  cbn [fst snd]. split; [done |]. split; [done |]. split; [done |].
  unfold enqueue. cbn [PageQueue.numberOfFrames PageQueue.queueArray
    PageQueue.head PageQueue.size PageQueue.tail].
  rewrite Hnf. change (negb (FRAMES =? FRAMES - 1)) with true. cbn iota.
  unfold queue_ok. cbn [PageQueue.numberOfFrames PageQueue.queueArray
    PageQueue.head PageQueue.size PageQueue.tail].
  rewrite length_store.
  assert (Ht : Z.rem (PageQueue.tail q + 1) FRAMES = PageQueue.head q).
  { rewrite Htl, Hsz. unfold FRAMES in *.
    rewrite Z.rem_mod_nonneg; Z.to_euclidean_division_equations; lia. }
  assert (Hh : Z.rem (PageQueue.head q + 1) FRAMES
               = (PageQueue.head q + 1) mod FRAMES).
  { unfold FRAMES in *. rewrite Z.rem_mod_nonneg; lia. }
  rewrite Ht, Hh.
  repeat split; try done.
  - unfold FRAMES. Z.to_euclidean_division_equations; lia.
  - unfold FRAMES in *. Z.to_euclidean_division_equations; lia.
  - unfold FRAMES in *. lia.
  - unfold FRAMES in *. Z.to_euclidean_division_equations; lia.
  - destruct (decide (j = FRAMES - 1)) as [->|Hj].
    + replace (((PageQueue.head q + 1) mod FRAMES + (FRAMES - 1)) mod FRAMES)
        with (PageQueue.head q)
        by (unfold FRAMES in *; Z.to_euclidean_division_equations; lia).
      rewrite load_store_eq; [lia | rewrite Hlen; unfold FRAMES in *; lia].
    + rewrite load_store_ne
        by (unfold FRAMES in *; Z.to_euclidean_division_equations; lia).
      replace (((PageQueue.head q + 1) mod FRAMES + j) mod FRAMES)
        with ((PageQueue.head q + (j + 1)) mod FRAMES)
        by (unfold FRAMES in *; Z.to_euclidean_division_equations; lia).
      apply Hslots. unfold FRAMES in *. lia.
  - destruct (decide (j = FRAMES - 1)) as [->|Hj].
    + replace (((PageQueue.head q + 1) mod FRAMES + (FRAMES - 1)) mod FRAMES)
        with (PageQueue.head q)
        by (unfold FRAMES in *; Z.to_euclidean_division_equations; lia).
      rewrite load_store_eq; [lia | rewrite Hlen; unfold FRAMES in *; lia].
    + rewrite load_store_ne
        by (unfold FRAMES in *; Z.to_euclidean_division_equations; lia).
      replace (((PageQueue.head q + 1) mod FRAMES + j) mod FRAMES)
        with ((PageQueue.head q + (j + 1)) mod FRAMES)
        by (unfold FRAMES in *; Z.to_euclidean_division_equations; lia).
      apply Hslots. unfold FRAMES in *. lia.
Qed.

(** ** The page queue as a bounded queue *)

Lemma mod_add_inj n h j k :
  0 < n -> 0 <= j < n -> 0 <= k < n ->
  (h + j) mod n = (h + k) mod n -> j = k.
Proof.
  intros Hn Hj Hk Heq.
  assert (H : (j - k) mod n = 0).
  { replace (j - k) with ((h + j) - (h + k)) by lia.
    rewrite Zminus_mod, Heq, Z.sub_diag. by apply Z.mod_0_l, Z.neq_sym, Z.lt_neq. }
  apply Z.mod_divide in H; [|lia]. destruct H as [c Hc].
  destruct (Z.lt_trichotomy c 0) as [Hc0|[Hc0|Hc0]]; [nia | subst c; lia | nia].
Qed.

Lemma initQueue_wf heap n :
  0 < n -> queue_wf (initQueue heap n) /\ queue_contents (initQueue heap n) = [].
Proof.
  intros Hn. unfold queue_wf, queue_contents, initQueue.
  cbn [PageQueue.numberOfFrames PageQueue.queueArray PageQueue.head
       PageQueue.size PageQueue.tail].
  split; [|reflexivity].
  split; [done |]. split; [by rewrite length_fmap, length_seq |].
  split; [lia |]. split; [lia |].
  replace (0 + 0 + (n - 1)) with (n - 1) by lia.
  symmetry. apply Z.mod_small. lia.
Qed.

Lemma enqueue_contents q x :
  queue_wf q ->
  queue_wf (enqueue q x)
  /\ queue_contents (enqueue q x)
     = if PageQueue.size q =? PageQueue.numberOfFrames q then queue_contents q
       else queue_contents q ++ [x].
Proof.
  intros Hwf. pose proof Hwf as (Hn & Hlen & Hhd & Hsz & Htl). cbn zeta in *.
  unfold enqueue. rewrite (Z.eqb_sym (PageQueue.size q)).
  destruct (PageQueue.numberOfFrames q =? PageQueue.size q) eqn:E; zbool;
    cbn [negb]; [split; [exact Hwf | reflexivity] |].
  set (n := PageQueue.numberOfFrames q) in *.
  assert (Ht : Z.rem (PageQueue.tail q + 1) n
               = (PageQueue.head q + PageQueue.size q) mod n).
  { assert (0 <= PageQueue.tail q < n) by (rewrite Htl; apply Z.mod_pos_bound; lia).
    rewrite Z.rem_mod_nonneg by lia.
    rewrite Htl, Zplus_mod_idemp_l.
    replace (PageQueue.head q + PageQueue.size q + (n - 1) + 1)
      with (PageQueue.head q + PageQueue.size q + 1 * n) by lia.
    apply Z_mod_plus_full. }
  rewrite Ht.
  assert (Hslot : 0 <= (PageQueue.head q + PageQueue.size q) mod n < n)
    by (apply Z.mod_pos_bound; lia).
  split.
  - unfold queue_wf.
    cbn [PageQueue.numberOfFrames PageQueue.queueArray PageQueue.head
         PageQueue.size PageQueue.tail]. fold n.
    rewrite length_store.
    split; [done |]. split; [done |]. split; [done |]. split; [lia |].
    rewrite <- (Z_mod_plus_full (PageQueue.head q + PageQueue.size q) 1 n).
    f_equal. lia.
  - unfold queue_contents.
    cbn [PageQueue.numberOfFrames PageQueue.queueArray PageQueue.head
         PageQueue.size PageQueue.tail]. fold n.
    rewrite seqZ_app by lia. rewrite fmap_app. f_equal.
    + apply list_fmap_ext. intros i j Hj.
      apply lookup_seqZ in Hj as [-> Hi].
      apply load_store_ne. intros Heq.
      apply mod_add_inj in Heq; lia.
    + rewrite Z.add_0_l. rewrite (seqZ_cons _ 1) by lia.
      rewrite seqZ_nil by lia. cbn [fmap list_fmap]. f_equal.
      apply load_store_eq. rewrite Hlen. lia.
Qed.

Lemma dequeue_contents q :
  queue_wf q ->
  queue_wf (snd (dequeue q))
  /\ match queue_contents q with
     | [] => dequeue q = (-1, q)
     | x :: rest =>
         fst (dequeue q) = x /\ queue_contents (snd (dequeue q)) = rest
     end.
Proof.
  intros Hwf. pose proof Hwf as (Hn & Hlen & Hhd & Hsz & Htl). cbn zeta in *.
  set (n := PageQueue.numberOfFrames q) in *.
  unfold dequeue, queue_contents. fold n.
  destruct (PageQueue.size q =? 0) eqn:E; zbool; cbn [negb fst snd].
  - rewrite E, seqZ_nil by lia. split; [exact Hwf | reflexivity].
  - assert (Hh : Z.rem (PageQueue.head q + 1) n = (PageQueue.head q + 1) mod n)
      by (apply Z.rem_mod_nonneg; lia).
    rewrite Hh.
    split.
    + unfold queue_wf.
      cbn [PageQueue.numberOfFrames PageQueue.queueArray PageQueue.head
           PageQueue.size PageQueue.tail]. fold n.
      split; [done |]. split; [done |].
      split; [apply Z.mod_pos_bound; lia |]. split; [lia |].
      rewrite Htl, <- (Z.add_assoc ((PageQueue.head q + 1) mod n)).
      rewrite Zplus_mod_idemp_l. f_equal. lia.
    + rewrite seqZ_cons by lia. cbn [fmap list_fmap].
      rewrite Z.add_0_r, Z.mod_small by lia.
      split; [done |].
      cbn [PageQueue.numberOfFrames PageQueue.queueArray PageQueue.head
           PageQueue.size PageQueue.tail]. fold n.
      change (Z.succ 0) with (1 + 0).
      rewrite <- (fmap_add_seqZ 1 0), <- list_fmap_compose.
      replace (Z.pred (PageQueue.size q)) with (PageQueue.size q - 1) by lia.
      apply list_fmap_ext. intros i j Hj. cbn [compose].
      rewrite Zplus_mod_idemp_l. do 2 f_equal. lia.
Qed.

(** [enqueue] appends to a queue that has room and leaves a full queue
    as it is; the capacity stays, and the queue never holds more than
    [numberOfFrames] entries. *)
Theorem enqueue_appends q x :
  queue_wf q ->
  queue_wf (enqueue q x)
  /\ PageQueue.numberOfFrames (enqueue q x) = PageQueue.numberOfFrames q
  /\ queue_contents (enqueue q x)
     = (if PageQueue.size q =? PageQueue.numberOfFrames q then queue_contents q
        else queue_contents q ++ [x])
  /\ Z.of_nat (length (queue_contents (enqueue q x)))
     <= PageQueue.numberOfFrames q.
Proof.
  intros Hwf. destruct (enqueue_contents q x Hwf) as [Hwf' Hc].
  assert (Hnf : PageQueue.numberOfFrames (enqueue q x)
                = PageQueue.numberOfFrames q).
  { unfold enqueue. by destruct (negb _). }
  split; [exact Hwf' |]. split; [exact Hnf |]. split; [exact Hc |].
  destruct Hwf' as (_ & _ & _ & Hsz & _). cbn zeta in Hsz.
  unfold queue_contents. rewrite length_fmap, length_seqZ. lia.
Qed.

(** [dequeue] removes and returns the oldest entry; on an empty queue it
    returns [-1] and leaves the queue as it is.  The capacity stays. *)
Theorem dequeue_takes_oldest q :
  queue_wf q ->
  queue_wf (snd (dequeue q))
  /\ PageQueue.numberOfFrames (snd (dequeue q)) = PageQueue.numberOfFrames q
  /\ match queue_contents q with
     | [] => dequeue q = (-1, q)
     | x :: rest =>
         fst (dequeue q) = x /\ queue_contents (snd (dequeue q)) = rest
     end.
Proof.
  intros Hwf. destruct (dequeue_contents q Hwf) as [Hwf' Hc].
  split; [exact Hwf' |]. split; [|exact Hc].
  unfold dequeue. by destruct (negb _).
Qed.

(** ** Insert, then probe *)

Lemma first_match_app lp (a b : list tlbentry) :
  Forall (fun e => physical e <> -1) a ->
  first_match lp (a ++ b)
  = if first_match lp a =? -1 then first_match lp b else first_match lp a.
Proof.
  induction a as [|e a IH]; intros Ha; [reflexivity |].
  apply Forall_cons in Ha as [He Ha]. cbn [app first_match].
  destruct (logical e =? lp); [|by apply IH].
  destruct (physical e =? -1) eqn:E; zbool; [done | reflexivity].
Qed.

Lemma first_match_no_match lp (es : list tlbentry) :
  Forall (fun e => logical e <> lp) es -> first_match lp es = -1.
Proof.
  induction es as [|e es IH]; intros H; [reflexivity |].
  apply Forall_cons in H as [He H]. cbn [first_match].
  destruct (logical e =? lp) eqn:E; zbool; [done | by apply IH].
Qed.

Lemma stored_physical (hist : list (Z * Z)) :
  Forall (fun e => physical e <> -1) (stored <$> hist).
Proof.
  apply Forall_fmap, Forall_forall. intros e _. cbn.
  unfold u8. pose proof (Z.mod_pos_bound (snd e) 256). lia.
Qed.

(** Insert, then probe: right after [add_to_tlb (l, p)] the probe for
    page [l] returns frame [p] (as an [unsigned char]), unless one of the
    [TLB_SIZE - 1] inserts before it was for the same page: the scan goes
    from the oldest entry, so the older entry is returned. *)
Theorem search_after_insert (hist : list (Z * Z)) (l p : Z) :
  let h := stored <$> hist in
  let older := drop (length h - Nat.min (Z.to_nat TLB_SIZE - 1) (length h)) h in
  search_tlb (fst (tlb_after (hist ++ [(l, p)])))
             (snd (tlb_after (hist ++ [(l, p)]))) l
  = if first_match (u8 l) older =? -1 then u8 p else first_match (u8 l) older.
Proof.
  cbn zeta. rewrite search_tlb_after. unfold probe_spec.
  rewrite fmap_app, length_app. cbn [fmap list_fmap length].
  set (h := stored <$> hist).
  replace (length h + 1 - Nat.min (Z.to_nat TLB_SIZE) (length h + 1))%nat
    with (length h - Nat.min (Z.to_nat TLB_SIZE - 1) (length h))%nat
    by (unfold TLB_SIZE; lia).
  rewrite drop_app_le by lia.
  rewrite first_match_app by (apply Forall_drop, stored_physical).
  destruct (_ =? _); [|reflexivity].
  cbn [first_match stored logical physical fst snd].
  by rewrite Z.eqb_refl.
Qed.

(** An entry ages out: after [TLB_SIZE] or more inserts for other pages,
    the probe for a page finds nothing, whatever was inserted before. *)
Theorem search_after_aging (hist more : list (Z * Z)) (l : Z) :
  (Z.to_nat TLB_SIZE <= length more)%nat ->
  Forall (fun e => u8 (fst e) <> u8 l) more ->
  search_tlb (fst (tlb_after (hist ++ more))) (snd (tlb_after (hist ++ more))) l
  = -1.
Proof.
  intros Hlen Hother. rewrite search_tlb_after. unfold probe_spec.
  rewrite fmap_app, length_app, !length_fmap.
  rewrite drop_app_ge by (rewrite length_fmap; lia).
  apply first_match_no_match, Forall_drop, Forall_fmap.
  eapply Forall_impl; [exact Hother |]. by intros e He.
Qed.

Section Properties.

Variable backing : Z -> Z.
Variable heap : nat -> Z.

Abbreviation exec := (exec backing).
Abbreviation trace := (trace backing).
Abbreviation step := (step backing).
Abbreviation init := (init heap).
Abbreviation frame_holds := (frame_holds backing).
Abbreviation memory_coherent := (memory_coherent backing).

(** ** Runs *)

Lemma exec_app rp s l1 l2 : exec rp s (l1 ++ l2) = exec rp (exec rp s l1) l2.
Proof. revert s. induction l1 as [|a l1 IH]; intros s; simpl; [done | apply IH]. Qed.

Lemma trace_app rp s l1 l2 :
  trace rp s (l1 ++ l2) = trace rp s l1 ++ trace rp (exec rp s l1) l2.
Proof.
  revert s. induction l1 as [|a l1 IH]; intros s; simpl; [done | by rewrite IH].
Qed.

Lemma length_trace rp s l : length (trace rp s l) = length l.
Proof. revert s. induction l as [|a l IH]; intros s; simpl; [done | by rewrite IH]. Qed.

(** An invariant of the states carries over to every run. *)
Lemma exec_invariant (P : state -> Prop) rp :
  (forall s a, P s -> P (fst (step rp s a))) ->
  forall l s, P s -> P (exec rp s l).
Proof.
  intros Hstep l. induction l as [|a l IH]; intros s Hs; simpl; [done |].
  apply IH, Hstep, Hs.
Qed.

(** A property of the events that holds at every state of an invariant
    holds along every run. *)
Lemma trace_invariant (P : state -> Prop) (Q : event -> Prop) rp :
  (forall s a, P s -> P (fst (step rp s a))) ->
  (forall s a, P s -> Q (snd (step rp s a))) ->
  forall l s, P s -> Forall Q (trace rp s l).
Proof.
  intros Hstep Hev l. induction l as [|a l IH]; intros s Hs; simpl.
  - constructor.
  - constructor; [by apply Hev | by apply IH, Hstep].
Qed.

Lemma trace_snoc rp s l a :
  trace rp s (l ++ [a]) = trace rp s l ++ [snd (step rp (exec rp s l) a)].
Proof. by rewrite trace_app. Qed.

(** ** One iteration, component by component *)

Lemma step_event_address rp s a :
  ev_logical_address (snd (step rp s a)) = a
  /\ ev_offset (snd (step rp s a)) = Z.land a OFFSET_MASK
  /\ ev_logical_page (snd (step rp s a))
     = Z.land (Z.shiftr a OFFSET_BITS) PAGE_MASK
  /\ ev_physical_address (snd (step rp s a))
     = Z.lor (Z.shiftl (ev_physical_page (snd (step rp s a))) OFFSET_BITS)
             (Z.land a OFFSET_MASK).
Proof.
  unfold step.
  destruct (resolve _ _ _ _) as [[[[s1 pp] hit] fault] victim]. by simpl.
Qed.

(** Where the frame of an iteration comes from: the TLB, the page table,
    the counter of unused frames, the head of the FIFO queue or the LRU
    scan. *)
Lemma step_frame rp s a :
  let e := snd (step rp s a) in
  let lp := ev_logical_page e in
  let pp := ev_physical_page e in
  (ev_tlb_hit e = true /\ ev_fault e = false /\ ev_victim e = None
   /\ pp = search_tlb (tlb s) (tlbindex s) lp /\ pp <> -1)
  \/ (ev_tlb_hit e = false /\ ev_fault e = false /\ ev_victim e = None
      /\ search_tlb (tlb s) (tlbindex s) lp = -1
      /\ pp = load 0 (pagetable s) lp /\ pp <> -1)
  \/ (ev_tlb_hit e = false /\ ev_fault e = true /\ ev_victim e = None
      /\ free_page s < FRAMES /\ pp = free_page s)
  \/ (ev_tlb_hit e = false /\ ev_fault e = true /\ ev_victim e = Some pp
      /\ FRAMES <= free_page s /\ rp = 0 /\ pp = fst (dequeue (queue s)))
  \/ (ev_tlb_hit e = false /\ ev_fault e = true /\ ev_victim e = Some pp
      /\ FRAMES <= free_page s /\ rp <> 0
      /\ pp = get_least_recently_used_element (recentUsages s)).
Proof.
  step_cases; try lia; auto 10.
  all: match goal with H : dequeue _ = _ |- _ => rewrite H end; auto 10.
Qed.

Lemma step_counters rp s a :
  total_addresses (fst (step rp s a)) = total_addresses s + 1
  /\ time_count (fst (step rp s a)) = time_count s + 1.
Proof. step_cases; auto. Qed.

Lemma step_tlb rp s a :
  let e := snd (step rp s a) in
  (tlb (fst (step rp s a)), tlbindex (fst (step rp s a)))
  = if ev_tlb_hit e then (tlb s, tlbindex s)
    else add_to_tlb (tlb s) (tlbindex s) (ev_logical_page e) (ev_physical_page e).
Proof. step_cases; auto. Qed.

Lemma step_main_memory rp s a :
  let e := snd (step rp s a) in
  main_memory (fst (step rp s a))
  = if ev_fault e
    then memcpy (main_memory s) (ev_physical_page e * PAGE_SIZE)
                backing (ev_logical_page e * PAGE_SIZE) PAGE_SIZE
    else main_memory s.
Proof. step_cases; auto. Qed.

Lemma step_value rp s a :
  let e := snd (step rp s a) in
  ev_value e
  = load 0 (main_memory (fst (step rp s a)))
         (ev_physical_page e * PAGE_SIZE + ev_offset e).
Proof. step_cases; auto. Qed.

Lemma step_recentUsages rp s a :
  let e := snd (step rp s a) in
  recentUsages (fst (step rp s a))
  = if rp =? 0 then recentUsages s
    else store (recentUsages s) (ev_physical_page e) (time_count s + 1).
Proof. step_cases; auto; lia. Qed.

Lemma step_free_page rp s a :
  let e := snd (step rp s a) in
  free_page (fst (step rp s a))
  = if ev_fault e && (free_page s <? FRAMES) then u8 (free_page s + 1)
    else free_page s.
Proof.
  step_cases; auto; try lia.
  all: destruct (free_page s <? FRAMES) eqn:E; zbool; auto; lia.
Qed.

Lemma step_page_faults rp s a :
  let e := snd (step rp s a) in
  page_faults (fst (step rp s a))
  = if ev_fault e then page_faults s + 1 else page_faults s.
Proof. step_cases; auto. Qed.

Lemma step_tlb_hits rp s a :
  let e := snd (step rp s a) in
  tlb_hits (fst (step rp s a))
  = if ev_tlb_hit e then tlb_hits s + 1 else tlb_hits s.
Proof. step_cases; auto. Qed.

Lemma step_queue rp s a :
  let e := snd (step rp s a) in
  queue (fst (step rp s a))
  = if rp =? 0 then
      enqueue (if ev_fault e && negb (free_page s <? FRAMES)
               then snd (dequeue (queue s)) else queue s)
              (ev_physical_page e)
    else queue s.
Proof.
  step_cases; auto; try lia.
  all: try match goal with H : dequeue _ = _ |- _ => rewrite H end.
  all: destruct (free_page s <? FRAMES) eqn:E; zbool; auto; lia.
Qed.

(** ** Offsets along a run *)

(** C6. Offset preservation: along every run the i-th line printed is the
    translation of the i-th address read, and the low [OFFSET_BITS] bits of
    the physical address printed are those of the logical address:
    [physical_address & OFFSET_MASK = logical_address & OFFSET_MASK]. *)
Theorem offset_preserved rp (input : list Z) :
  Forall2 (fun a e =>
             ev_logical_address e = a
             /\ Z.land (ev_physical_address e) OFFSET_MASK
                = Z.land (ev_logical_address e) OFFSET_MASK)
          input (trace rp init input).
Proof.
  generalize init as s.
  induction input as [|a l IH]; intros s; simpl; constructor; [|apply IH].
  destruct (step_event_address rp s a) as (Ha & _ & _ & Hp).
  split; [done |]. rewrite Hp, Ha. apply lor_offset_mask.
Qed.

(** ** The page table along a run *)

(** The page table changes in the page-fault branch only, where the page
    read was absent: the owner of the frame chosen is released, then the
    page is bound to the frame. *)
Lemma step_pagetable rp s a :
  let e := snd (step rp s a) in
  (ev_fault e = false /\ pagetable (fst (step rp s a)) = pagetable s)
  \/ (ev_fault e = true
      /\ load 0 (pagetable s) (ev_logical_page e) = -1
      /\ pagetable (fst (step rp s a))
         = store (clear_owner (pagetable s) (ev_physical_page e) 0 (Z.to_nat PAGES))
                 (ev_logical_page e) (ev_physical_page e)).
Proof.
  step_cases; auto.
Qed.

Lemma step_pagetable_ok rp s a :
  pagetable_ok (pagetable s) -> pagetable_ok (pagetable (fst (step rp s a))).
Proof.
  intros Hok.
  destruct (step_pagetable rp s a) as [[_ ->]|(_ & Habs & ->)]; [done |].
  apply bind_after_clear; [done | | done].
  destruct (step_event_address rp s a) as (_ & _ & -> & _).
  apply logical_page_range.
Qed.

Lemma init_pagetable_ok : pagetable_ok (pagetable init).
Proof.
  split; [apply length_replicate |].
  intros p1 p2 H1 H2 _ N1. exfalso. apply N1.
  unfold init, load. cbn [pagetable]. destruct (0 <=? p1) eqn:E; zbool; [|lia].
  rewrite lookup_replicate_2; [done | unfold PAGES in *; lia].
Qed.

(** C3. At every point between two translations the page table maps at
    most one logical page to any physical frame: two distinct pages whose
    entries are not the absent mark [-1] have different frames.  (Each
    step keeps this, [step_pagetable_ok]: the fault branch releases the
    owner of the frame before it binds the new page.) *)
Theorem pagetable_one_owner rp (input : list Z) :
  forall p1 p2, 0 <= p1 < PAGES -> 0 <= p2 < PAGES -> p1 <> p2 ->
    load 0 (pagetable (exec rp init input)) p1 <> -1 ->
    load 0 (pagetable (exec rp init input)) p2 <> -1 ->
    load 0 (pagetable (exec rp init input)) p1
    <> load 0 (pagetable (exec rp init input)) p2.
Proof.
  assert (H : pagetable_ok (pagetable (exec rp init input))).
  { apply (exec_invariant (fun s => pagetable_ok (pagetable s))).
    - intros s a. apply step_pagetable_ok.
    - apply init_pagetable_ok. }
  apply H.
Qed.

(** ** Well-formed states *)

Lemma init_wf rp : wf rp init.
Proof.
  split; unfold init;
    cbn [tlb tlbindex pagetable main_memory queue recentUsages total_addresses
         tlb_hits page_faults free_page time_count].
  - apply length_replicate.
  - apply Forall_replicate. unfold FRAMES. cbn. lia.
  - lia.
  - apply length_replicate.
  - apply Forall_replicate. by left.
  - apply length_replicate.
  - apply length_replicate.
  - apply Forall_replicate. lia.
  - unfold FRAMES. lia.
  - lia.
  - done.
  - intros _. apply init_queue_ok.
Qed.

(** The frame of an iteration is a frame number; an eviction under FIFO
    finds the queue full. *)
Lemma step_frame_range rp s a :
  wf rp s ->
  let e := snd (step rp s a) in
  0 <= ev_physical_page e < FRAMES
  /\ (ev_victim e <> None -> rp = 0 -> PageQueue.size (queue s) = FRAMES).
Proof.
  intros Hwf. cbn zeta.
  destruct (step_event_address rp s a) as (_ & _ & Hlp & _).
  pose proof (logical_page_range a) as Hlpr. rewrite <- Hlp in Hlpr.
  destruct (step_frame rp s a)
    as [(_ & _ & Hv & Hpp & Hne)|[(_ & _ & Hv & _ & Hpp & Hne)
       |[(_ & _ & Hv & Hfree & Hpp)|[(_ & _ & Hv & Hfree & Hrp & Hpp)
       |(_ & _ & Hv & Hfree & Hrp & Hpp)]]]].
  - split; [|by rewrite Hv].
    destruct (search_tlb_range (tlb s) (tlbindex s)
                (ev_logical_page (snd (step rp s a))));
      [apply Hwf | apply Hwf | congruence | congruence].
  - split; [|by rewrite Hv].
    assert (H : (fun f => f = -1 \/ 0 <= f < FRAMES)
                  (load 0 (pagetable s) (ev_logical_page (snd (step rp s a))))).
    { apply load_Forall; [apply Hwf |].
      rewrite (wf_pagetable_length _ _ Hwf). unfold PAGES in *. lia. }
    cbn beta in H. rewrite <- Hpp in H. lia.
  - split; [|by rewrite Hv].
    rewrite Hpp. pose proof (wf_free_page _ _ Hwf). lia.
  - pose proof (wf_free_total _ _ Hwf).
    destruct (dequeue_enqueue_ok (total_addresses s) (queue s))
      as (Hsz & _ & Hx & _); [lia | by apply Hwf |].
    split; [by rewrite Hpp | done].
  - split; [|done]. rewrite Hpp. apply lru_range.
Qed.

(** Every iteration keeps the state well formed. *)
Lemma step_wf rp s a : wf rp s -> wf rp (fst (step rp s a)).
Proof.
  intros Hwf.
  destruct (step_frame_range rp s a Hwf) as [Hpp _].
  destruct (step_counters rp s a) as [Htot Htime].
  pose proof (wf_free_page _ _ Hwf) as Hfree.
  pose proof (wf_free_total _ _ Hwf) as Hft.
  pose proof (wf_time_count _ _ Hwf) as Htc.
  pose proof (step_tlb rp s a) as Htlb. cbn zeta in Htlb.
  assert (Htlb' : length (tlb (fst (step rp s a))) = Z.to_nat TLB_SIZE
                  /\ Forall (fun e => 0 <= physical e < FRAMES)
                            (tlb (fst (step rp s a)))
                  /\ 0 <= tlbindex (fst (step rp s a))).
  { destruct (ev_tlb_hit _); unfold add_to_tlb in Htlb;
      injection Htlb as -> ->.
    - split; [apply Hwf |]. split; apply Hwf.
    - split; [rewrite length_store; apply Hwf |]. split.
      + apply store_Forall; [apply Hwf |]. cbn [physical].
        rewrite u8_small; unfold FRAMES in *; lia.
      + pose proof (wf_tlbindex _ _ Hwf). lia. }
  destruct Htlb' as (Ht1 & Ht2 & Ht3).
  split; try done.
  - destruct (step_pagetable rp s a) as [[_ ->]|(_ & _ & ->)]; [apply Hwf |].
    rewrite length_store, length_clear_owner. apply Hwf.
  - destruct (step_pagetable rp s a) as [[_ ->]|(_ & _ & ->)]; [apply Hwf |].
    apply store_Forall; [apply clear_owner_Forall, Hwf | by right].
  - rewrite step_main_memory. destruct (ev_fault _); [|apply Hwf].
    rewrite length_memcpy; [apply Hwf | unfold PAGE_SIZE; lia].
  - rewrite step_recentUsages. destruct (rp =? 0); [apply Hwf |].
    rewrite length_store. apply Hwf.
  - rewrite step_recentUsages, Htime.
    assert (Hold : Forall (fun t => -1 <= t <= time_count s + 1) (recentUsages s)).
    { eapply Forall_impl; [apply Hwf |]. cbn beta. intros t Ht. lia. }
    destruct (rp =? 0); [done |].
    apply store_Forall; [done | lia].
  - rewrite step_free_page. destruct (_ && _) eqn:E; [|done]. zbool.
    rewrite u8_small; unfold FRAMES in *; lia.
  - rewrite step_free_page, Htot. destruct (_ && _) eqn:E; [|lia]. zbool.
    rewrite u8_small; unfold FRAMES in *; lia.
  - lia.
  - intros Hrp. rewrite step_queue, Htot. subst rp. change (0 =? 0) with true.
    cbn iota.
    pose proof (wf_queue _ _ Hwf eq_refl) as Hq.
    destruct (step_frame 0 s a)
      as [(_ & Hf & _)|[(_ & Hf & _)
         |[(_ & Hf & _ & Hfr & _)|[(_ & Hf & _ & Hfr & _ & Hd)
         |(_ & _ & _ & _ & Hrp & _)]]]]; [| | | |done].
    + rewrite Hf. cbn [andb]. apply enqueue_ok; [lia | done | done].
    + rewrite Hf. cbn [andb]. apply enqueue_ok; [lia | done | done].
    + rewrite Hf. assert (E : (free_page s <? FRAMES) = true) by (apply Z.ltb_lt; lia).
      rewrite E. cbn [andb negb]. apply enqueue_ok; [lia | done | done].
    + rewrite Hf. assert (E : (free_page s <? FRAMES) = false) by (apply Z.ltb_ge; lia).
      rewrite E. cbn [andb negb]. rewrite Hd.
      apply dequeue_enqueue_ok; [lia | done].
Qed.

Lemma exec_wf rp input : wf rp (exec rp init input).
Proof.
  apply (exec_invariant (wf rp)); [apply step_wf | apply init_wf].
Qed.

(** ** Bounds *)

(** C9. Along every run the frame number used by an iteration lies in
    [0, FRAMES), so the index [physical_page * PAGE_SIZE + offset] read
    from [main_memory] lies in [0, FRAMES * PAGE_SIZE), and the
    replacement policy never returns the mark [-1]; in particular, when an
    iteration under FIFO asks the queue for a victim, the queue is full:
    [dequeue] takes its first branch and returns a frame number. *)
Theorem in_bounds rp (input : list Z) :
  Forall (fun e =>
            0 <= ev_physical_page e < FRAMES
            /\ 0 <= ev_physical_page e * PAGE_SIZE + ev_offset e
               < FRAMES * PAGE_SIZE
            /\ ev_victim e <> Some (-1))
         (trace rp init input)
  /\ (forall a,
        rp = 0 ->
        ev_victim (snd (step rp (exec rp init input) a)) <> None ->
        PageQueue.size (queue (exec rp init input)) = FRAMES
        /\ 0 <= fst (dequeue (queue (exec rp init input))) < FRAMES).
Proof.
  split.
  - apply (trace_invariant (wf rp)); [apply step_wf | | apply init_wf].
    intros s a Hwf.
    destruct (step_frame_range rp s a Hwf) as [Hpp _].
    destruct (step_event_address rp s a) as (_ & Ho & _).
    pose proof (offset_range a) as Hor. rewrite <- Ho in Hor.
    split; [done |]. split; [unfold FRAMES, PAGE_SIZE in *; lia |].
    destruct (step_frame rp s a)
      as [(_ & _ & Hv & _)|[(_ & _ & Hv & _)|[(_ & _ & Hv & _)
         |[(_ & _ & Hv & _)|(_ & _ & Hv & _)]]]]; rewrite Hv; try done.
    all: intros [= E]; lia.
  - intros a Hrp Hv.
    pose proof (exec_wf rp input) as Hwf.
    destruct (step_frame_range rp _ a Hwf) as [_ Hsz].
    split; [by apply Hsz |].
    apply (dequeue_enqueue_ok (total_addresses (exec rp init input)));
      [|by apply Hwf].
    destruct (step_frame rp (exec rp init input) a)
      as [(_ & _ & Hn & _)|[(_ & _ & Hn & _)|[(_ & _ & Hn & _)
         |[(_ & _ & _ & Hfr & _)|(_ & _ & _ & _ & Hne & _)]]]]; try done.
    pose proof (wf_free_total _ _ Hwf). lia.
Qed.

(** ** Frame allocation *)

(** From a state with [free_page s] frames in use, the next page faults
    take the frames [free_page s], [free_page s + 1], ... up to
    [FRAMES - 1], without asking the replacement policy. *)
Lemma allocation_from rp (input : list Z) : forall s,
  wf rp s ->
  let faults := filter is_fault (trace rp s input) in
  (fun e => (ev_physical_page e, ev_victim e))
    <$> take (Z.to_nat (FRAMES - free_page s)) faults
  = (fun i => (i, None))
    <$> seqZ (free_page s)
             (Z.min (FRAMES - free_page s) (Z.of_nat (length faults))).
Proof.
  induction input as [|a l IH]; intros s Hwf; cbn zeta.
  - cbn. rewrite take_nil, seqZ_nil; [done |].
    pose proof (wf_free_page _ _ Hwf). lia.
  - cbn [trace]. pose proof (wf_free_page _ _ Hwf) as Hfree.
    specialize (IH _ (step_wf rp s a Hwf)). cbn zeta in IH.
    rewrite step_free_page in IH.
    destruct (decide (is_fault (snd (step rp s a)))) as [Hf|Hf].
    + rewrite filter_cons_True by done. unfold is_fault in Hf.
      rewrite Hf in IH. cbn [andb length] in IH |- *.
      destruct (free_page s <? FRAMES) eqn:E; zbool.
      * rewrite u8_small in IH by (unfold FRAMES in *; lia).
        replace (Z.to_nat (FRAMES - free_page s))
          with (S (Z.to_nat (FRAMES - (free_page s + 1)))) by lia.
        rewrite seqZ_cons by lia. cbn [take fmap list_fmap].
        destruct (step_frame rp s a)
          as [(_ & Hn & _)|[(_ & Hn & _)|[(_ & _ & Hv & _ & Hpp)
             |[(_ & _ & _ & Hfr & _)|(_ & _ & _ & Hfr & _)]]]];
          [congruence | congruence | | lia | lia].
        rewrite Hv, Hpp. f_equal.
        etrans; [apply IH |]. f_equal. f_equal; lia.
      * replace (Z.to_nat (FRAMES - free_page s)) with 0%nat by lia.
        rewrite seqZ_nil by lia. done.
    + rewrite filter_cons_False by done. unfold is_fault in Hf.
      apply not_true_is_false in Hf. rewrite Hf in IH. cbn [andb] in IH.
      apply IH.
Qed.

(** C5. Frame allocation: along every run the i-th page fault, for i
    from 1 to [FRAMES], takes frame [i - 1] and does not consult the
    replacement policy; the policy is consulted by page faults only: a
    victim is selected only by a fault that comes after [FRAMES] faults,
    that is once the frames [0 .. FRAMES - 1] are all allocated. *)
Theorem frame_allocation rp (input : list Z) :
  let faults := filter is_fault (trace rp init input) in
  (fun e => (ev_physical_page e, ev_victim e)) <$> take (Z.to_nat FRAMES) faults
  = (fun i => (i, None))
    <$> seqZ 0 (Z.min FRAMES (Z.of_nat (length faults)))
  /\ Forall (fun e => ev_victim e <> None -> ev_fault e = true)
            (trace rp init input).
Proof.
  split.
  - pose proof (allocation_from rp input init (init_wf rp)) as H.
    cbn zeta in H. change (free_page init) with 0 in H.
    by rewrite Z.sub_0_r in H.
  - apply (trace_invariant (fun _ => True)); [done | | done].
    intros s a _.
    destruct (step_frame rp s a)
      as [(_ & _ & Hv & _)|[(_ & _ & Hv & _)|[(_ & Hf & _)
         |[(_ & Hf & _)|(_ & Hf & _)]]]]; try done; by rewrite Hv.
Qed.

(** ** Page loads *)

(** A page fault leaves the page in its frame. *)
Lemma step_fault_holds rp s a :
  wf rp s -> ev_fault (snd (step rp s a)) = true ->
  frame_holds (fst (step rp s a))
    (ev_physical_page (snd (step rp s a))) (ev_logical_page (snd (step rp s a))).
Proof.
  intros Hwf Hf o Ho.
  destruct (step_frame_range rp s a Hwf) as [Hpp _].
  rewrite step_main_memory, Hf.
  apply load_memcpy_inside; [unfold PAGE_SIZE; lia | | done].
  rewrite (wf_main_memory _ _ Hwf).
  unfold PHYSICAL_MEMORY_SIZE, FRAMES, PAGE_SIZE in *. lia.
Qed.

(** An iteration that does not load into frame [f] leaves it as it is. *)
Lemma step_keeps_frame rp s a f p :
  wf rp s -> 0 <= f < FRAMES -> ~ loads_into f (snd (step rp s a)) ->
  frame_holds s f p -> frame_holds (fst (step rp s a)) f p.
Proof.
  intros Hwf Hf Hno Hholds o Ho.
  destruct (step_frame_range rp s a Hwf) as [Hpp _].
  rewrite step_main_memory.
  destruct (ev_fault (snd (step rp s a))) eqn:E; [|by apply Hholds].
  rewrite load_memcpy_outside; [by apply Hholds | unfold PAGE_SIZE; lia |].
  assert (ev_physical_page (snd (step rp s a)) <> f)
    by (intros Heq; apply Hno; by split).
  unfold PAGE_SIZE in *. lia.
Qed.

Lemma run_keeps_frame rp f p (mid : list Z) : forall s,
  wf rp s -> 0 <= f < FRAMES ->
  Forall (fun e => ~ loads_into f e) (trace rp s mid) ->
  frame_holds s f p ->
  frame_holds (exec rp s mid) f p
  /\ Forall (fun e => ev_physical_page e = f ->
                      ev_value e = backing (p * PAGE_SIZE + ev_offset e))
            (trace rp s mid).
Proof.
  induction mid as [|a l IH]; intros s Hwf Hf Hno Hholds; cbn [exec trace].
  - by split.
  - apply Forall_cons in Hno as [Hno1 Hno].
    pose proof (step_keeps_frame rp s a f p Hwf Hf Hno1 Hholds) as Hnext.
    destruct (IH _ (step_wf rp s a Hwf) Hf Hno Hnext) as [Hend Hvals].
    split; [done |]. constructor; [|done].
    intros Hpp. rewrite step_value, Hpp. apply Hnext.
    destruct (step_event_address rp s a) as (_ & -> & _). apply offset_range.
Qed.

(** C7. Round trip of a page load: when an iteration faults and copies
    logical page [p] into frame [f], then as long as no later iteration
    loads a page into [f], every byte of the frame is the byte of the
    backing store at the same offset of page [p], and the value printed by
    the faulting iteration and by every later iteration that uses frame
    [f] is the backing byte at [p * PAGE_SIZE + offset]. *)
Theorem page_load_round_trip rp (pre mid : list Z) (a : Z) :
  let s0 := exec rp init pre in
  let e := snd (step rp s0 a) in
  let s1 := fst (step rp s0 a) in
  let f := ev_physical_page e in
  let p := ev_logical_page e in
  ev_fault e = true ->
  Forall (fun e' => ~ loads_into f e') (trace rp s1 mid) ->
  (forall o, 0 <= o < PAGE_SIZE ->
     load 0 (main_memory (exec rp init (pre ++ a :: mid))) (f * PAGE_SIZE + o)
     = backing (p * PAGE_SIZE + o))
  /\ Forall (fun e' => ev_physical_page e' = f ->
                       ev_value e' = backing (p * PAGE_SIZE + ev_offset e'))
            (e :: trace rp s1 mid).
Proof.
  intros s0 e s1 f p Hfault Hno.
  pose proof (exec_wf rp pre) as Hwf0. fold s0 in Hwf0.
  pose proof (step_wf rp s0 a Hwf0) as Hwf1. fold s1 in Hwf1.
  destruct (step_frame_range rp s0 a Hwf0) as [Hf _]. fold e f in Hf.
  pose proof (step_fault_holds rp s0 a Hwf0 Hfault) as Hholds.
  fold s1 e f p in Hholds.
  destruct (run_keeps_frame rp f p mid s1 Hwf1 Hf Hno Hholds) as [Hend Hvals].
  rewrite exec_app. cbn [exec]. fold s0 s1.
  split; [done |]. constructor; [|done].
  intros _. subst e f p s1. rewrite step_value. apply Hholds.
  destruct (step_event_address rp s0 a) as (_ & -> & _). apply offset_range.
Qed.

(** ** Counters *)

(** The counters of a run against the number of lines read. *)
Lemma exec_counters rp (input : list Z) : forall s,
  let s' := exec rp s input in
  let n := Z.of_nat (length input) in
  total_addresses s' = total_addresses s + n
  /\ time_count s' = time_count s + n
  /\ tlbindex s <= tlbindex s' <= tlbindex s + n
  /\ page_faults s <= page_faults s'
  /\ tlb_hits s <= tlb_hits s'
  /\ (page_faults s' - page_faults s) + (tlb_hits s' - tlb_hits s) <= n.
Proof.
  induction input as [|a l IH]; intros s; cbn zeta.
  - cbn [exec length]. lia.
  - cbn [exec length]. specialize (IH (fst (step rp s a))). cbn zeta in IH.
    destruct (step_counters rp s a) as [Ht Htc].
    pose proof (step_tlb rp s a) as Htlb. cbn zeta in Htlb.
    pose proof (step_page_faults rp s a) as Hpf. cbn zeta in Hpf.
    pose proof (step_tlb_hits rp s a) as Hh. cbn zeta in Hh.
    assert (Hexcl : ev_tlb_hit (snd (step rp s a)) = true ->
                    ev_fault (snd (step rp s a)) = false).
    { destruct (step_frame rp s a)
        as [(_ & Hf & _)|[(Hn & _)|[(Hn & _)|[(Hn & _)|(Hn & _)]]]];
        congruence. }
    assert (Hi : tlbindex s <= tlbindex (fst (step rp s a)) <= tlbindex s + 1).
    { destruct (ev_tlb_hit _); unfold add_to_tlb in Htlb;
        injection Htlb as _ ->; lia. }
    destruct (ev_tlb_hit (snd (step rp s a)));
      destruct (ev_fault (snd (step rp s a)));
      try (specialize (Hexcl eq_refl); discriminate); lia.
Qed.

(** From the initial state the counters stay within the number of lines
    read: no [int] counter overflows on fewer than 2^31 lines. *)
Lemma counters_bounded rp (input : list Z) :
  let s := exec rp init input in
  let n := Z.of_nat (length input) in
  total_addresses s = n /\ time_count s = n
  /\ 0 <= tlbindex s <= n
  /\ 0 <= page_faults s /\ 0 <= tlb_hits s
  /\ page_faults s + tlb_hits s <= n.
Proof.
  pose proof (exec_counters rp input init) as H. cbn zeta in H |- *.
  change (total_addresses init) with 0 in H.
  change (time_count init) with 0 in H.
  change (tlbindex init) with 0 in H.
  change (page_faults init) with 0 in H.
  change (tlb_hits init) with 0 in H. lia.
Qed.

(** ** The TLB along a run *)

Lemma exec_tlb_after rp (input : list Z) :
  (tlb (exec rp init input), tlbindex (exec rp init input))
  = tlb_after (tlb_inserts (trace rp init input)).
Proof.
  induction input as [|a l IH] using rev_ind; [reflexivity |].
  rewrite exec_app, trace_snoc. cbn [exec].
  unfold tlb_inserts. rewrite filter_app, fmap_app. fold (tlb_inserts (trace rp init l)).
  rewrite step_tlb.
  destruct (ev_tlb_hit (snd (step rp (exec rp init l) a))) eqn:E.
  - rewrite filter_cons_False by (unfold is_tlb_miss; congruence).
    rewrite filter_nil, fmap_nil, app_nil_r. exact IH.
  - rewrite filter_cons_True by exact E.
    rewrite filter_nil. cbn [fmap list_fmap].
    rewrite tlb_after_snoc, <- IH. reflexivity.
Qed.

(** C4. TLB probe: after any sequence of inserts, [search_tlb] returns
    what the probe of the specification returns on the entries inserted:
    it scans the most recent [min (TLB_SIZE, number of inserts)] of them
    in insertion order and yields the frame of the first whose logical
    page matches, or [-1] when none of them matches.  So does the probe
    at any point of a run, on the inserts that the run has made. *)
Theorem search_tlb_probe rp (input : list Z) (hist : list (Z * Z))
    (logical_page : Z) :
  search_tlb (fst (tlb_after hist)) (snd (tlb_after hist)) logical_page
  = probe_spec (stored <$> hist) (u8 logical_page)
  /\ search_tlb (tlb (exec rp init input)) (tlbindex (exec rp init input))
                logical_page
     = probe_spec (stored <$> tlb_inserts (trace rp init input)) (u8 logical_page).
Proof.
  split; [apply search_tlb_after |].
  rewrite <- search_tlb_after, <- exec_tlb_after. reflexivity.
Qed.

(** ** FIFO without an early hit *)

Lemma init_fifo_ordered : fifo_ordered init.
Proof.
  unfold fifo_ordered, init, initQueue.
  cbn [queue total_addresses page_faults free_page PageQueue.numberOfFrames
       PageQueue.queueArray PageQueue.head PageQueue.size PageQueue.tail].
  split; [done |]. split; [by rewrite length_fmap, length_seq |].
  split; [lia |]. left. unfold FRAMES.
  repeat split; try done. intros j Hj. lia.
Qed.

Lemma step_fifo_ordered s a :
  fifo_ordered s ->
  (total_addresses s < FRAMES -> ev_fault (snd (step 0 s a)) = true) ->
  fifo_ordered (fst (step 0 s a))
  /\ (ev_fault (snd (step 0 s a)) = true ->
      ev_physical_page (snd (step 0 s a)) = page_faults s mod FRAMES).
Proof.
  intros (Hnf & Hlen & Hn & Hq) Hwarm.
  destruct (step_counters 0 s a) as [Htot _].
  pose proof (step_page_faults 0 s a) as Hpf. cbn zeta in Hpf.
  pose proof (step_free_page 0 s a) as Hfree. cbn zeta in Hfree.
  pose proof (step_queue 0 s a) as Hqueue. cbn zeta in Hqueue.
  change (0 =? 0) with true in Hqueue. cbn iota in Hqueue.
  unfold fifo_ordered. cbn zeta. rewrite Htot, Hpf, Hfree, Hqueue.
  destruct Hq as [(Hlt & Hf & Hfr & Hhd & Hsz & Htl & Hslots)
                 |(Hge & Hf & Hfr & Hhd & Hsz & Htl & Hslots)].
  - specialize (Hwarm Hlt). rewrite Hwarm.
    assert (E : (free_page s <? FRAMES) = true) by (apply Z.ltb_lt; lia).
    rewrite E. cbn [andb negb].
    destruct (step_frame 0 s a)
      as [(_ & Hx & _)|[(_ & Hx & _)|[(_ & _ & _ & _ & Hpp)
         |[(_ & _ & _ & Hx & _)|(_ & _ & _ & Hx & _)]]]];
      [congruence | congruence | | lia | lia].
    rewrite Hpp, Hfr.
    split; [|intros _; rewrite Hf; symmetry; apply Z.mod_small; lia].
    unfold enqueue. rewrite Hnf, Hsz.
    assert (E2 : (FRAMES =? total_addresses s) = false) by (apply Z.eqb_neq; lia).
    rewrite E2. cbn [negb].
    cbn [PageQueue.numberOfFrames PageQueue.queueArray PageQueue.head
         PageQueue.size PageQueue.tail].
    assert (Ht : Z.rem (PageQueue.tail s.(queue) + 1) FRAMES = total_addresses s).
    { rewrite Htl. unfold FRAMES in *.
      rewrite Z.rem_mod_nonneg; Z.to_euclidean_division_equations; lia. }
    rewrite Ht, length_store, u8_small by (unfold FRAMES in *; lia).
    split; [done |]. split; [done |]. split; [lia |].
    assert (Hnew : forall j, 0 <= j < total_addresses s + 1 ->
              load 0 (store (PageQueue.queueArray (queue s))
                            (total_addresses s) (total_addresses s)) j = j).
    { intros j Hj. rewrite load_store. case_decide as Hd.
      - lia.
      - apply Hslots.
        destruct (decide (j = total_addresses s)) as [->|]; [|lia].
        exfalso. apply Hd. rewrite Hlen. unfold FRAMES in *. lia. }
    destruct (decide (total_addresses s + 1 < FRAMES)) as [Hs|Hs].
    + left. repeat split; try done; try lia; try (intros; apply Hnew; lia).
      all: unfold FRAMES in *; Z.to_euclidean_division_equations; lia.
    + right. assert (Hfull : total_addresses s + 1 = FRAMES) by lia.
      repeat split; try done; try lia; try (intros; apply Hnew; lia).
      all: rewrite ?Hf, ?Hfull; unfold FRAMES in *;
        Z.to_euclidean_division_equations; lia.
  - assert (E : (free_page s <? FRAMES) = false) by (apply Z.ltb_ge; lia).
    rewrite E, andb_false_r. cbn [negb]. rewrite andb_true_r.
    assert (Hh : 0 <= page_faults s mod FRAMES < FRAMES)
      by (apply Z.mod_pos_bound; unfold FRAMES; lia).
    destruct (ev_fault (snd (step 0 s a))) eqn:Hfault.
    + destruct (step_frame 0 s a)
        as [(_ & Hx & _)|[(_ & Hx & _)|[(_ & _ & _ & Hx & _)
           |[(_ & _ & _ & _ & _ & Hpp)|(_ & _ & _ & _ & Hx & _)]]]];
        [congruence | congruence | lia | | done].
      assert (Hd : fst (dequeue (queue s)) = page_faults s mod FRAMES).
      { unfold dequeue. rewrite Hsz. change (negb (FRAMES =? 0)) with true.
        cbn [fst]. rewrite Hhd. by apply Hslots. }
      rewrite Hpp, Hd. split; [|done].
      unfold dequeue. rewrite Hsz. change (negb (FRAMES =? 0)) with true.
      cbn [snd]. unfold enqueue.
      cbn [PageQueue.numberOfFrames PageQueue.queueArray PageQueue.head
           PageQueue.size PageQueue.tail].
      rewrite Hnf. change (negb (FRAMES =? FRAMES - 1)) with true. cbn iota.
      cbn [PageQueue.numberOfFrames PageQueue.queueArray PageQueue.head
           PageQueue.size PageQueue.tail].
      assert (Ht : Z.rem (PageQueue.tail s.(queue) + 1) FRAMES
                   = page_faults s mod FRAMES).
      { rewrite Htl. unfold FRAMES in *.
        rewrite Z.rem_mod_nonneg; Z.to_euclidean_division_equations; lia. }
      assert (Hh' : Z.rem (PageQueue.head s.(queue) + 1) FRAMES
                    = (page_faults s + 1) mod FRAMES).
      { rewrite Hhd. unfold FRAMES in *.
        rewrite Z.rem_mod_nonneg; Z.to_euclidean_division_equations; lia. }
      rewrite Ht, Hh', length_store.
      split; [done |]. split; [done |]. split; [lia |].
      right. repeat split; try done; try lia.
      all: try (intros j Hj; rewrite load_store_same; by apply Hslots).
      all: unfold FRAMES in *; Z.to_euclidean_division_equations; lia.
    + split; [|done].
      unfold enqueue. rewrite Hnf, Hsz. change (negb (FRAMES =? FRAMES)) with false.
      cbn iota.
      split; [done |]. split; [done |]. split; [lia |].
      right. repeat split; try done; try lia.
Qed.

(** When the first [FRAMES] iterations of a FIFO run all fault, the
    frames are reused in the order of their loads: the i-th page fault
    (from 0) uses frame [i mod FRAMES], which at an eviction is the frame
    loaded [FRAMES] faults earlier. *)
Lemma fifo_cyclic_from (input : list Z) : forall s,
  fifo_ordered s ->
  Forall is_fault (take (Z.to_nat (FRAMES - total_addresses s)) (trace 0 s input)) ->
  ev_physical_page <$> filter is_fault (trace 0 s input)
  = (fun i => i mod FRAMES)
    <$> seqZ (page_faults s)
             (Z.of_nat (length (filter is_fault (trace 0 s input)))).
Proof.
  induction input as [|a l IH]; intros s Hord Hwarm; [reflexivity |].
  cbn [trace] in *.
  assert (Hw : total_addresses s < FRAMES -> ev_fault (snd (step 0 s a)) = true).
  { intros Hlt.
    replace (Z.to_nat (FRAMES - total_addresses s))
      with (S (Z.to_nat (FRAMES - (total_addresses s + 1)))) in Hwarm by lia.
    cbn [take] in Hwarm. by apply Forall_cons in Hwarm as [? _]. }
  destruct (step_fifo_ordered s a Hord Hw) as [Hnext Hpp].
  destruct (step_counters 0 s a) as [Htot _].
  assert (Hwarm' : Forall is_fault
            (take (Z.to_nat (FRAMES - total_addresses (fst (step 0 s a))))
                  (trace 0 (fst (step 0 s a)) l))).
  { rewrite Htot.
    destruct (decide (total_addresses s < FRAMES)) as [Hlt|Hge].
    - replace (Z.to_nat (FRAMES - total_addresses s))
        with (S (Z.to_nat (FRAMES - (total_addresses s + 1)))) in Hwarm by lia.
      cbn [take] in Hwarm. by apply Forall_cons in Hwarm as [_ ?].
    - replace (Z.to_nat (FRAMES - (total_addresses s + 1))) with 0%nat by lia.
      rewrite take_0. constructor. }
  specialize (IH _ Hnext Hwarm'). rewrite step_page_faults in IH.
  destruct (decide (is_fault (snd (step 0 s a)))) as [Hf|Hf].
  - rewrite filter_cons_True by done. unfold is_fault in Hf.
    rewrite Hf in IH. cbn [length fmap list_fmap].
    rewrite seqZ_cons by lia. cbn [fmap list_fmap].
    rewrite (Hpp Hf). f_equal.
    etrans; [apply IH |]. f_equal. f_equal; lia.
  - rewrite filter_cons_False by done. unfold is_fault in Hf.
    apply not_true_is_false in Hf. rewrite Hf in IH. apply IH.
Qed.

(** From the initial state: when the first [FRAMES] iterations of a
    FIFO run all fault, the i-th page fault (from 0) uses frame
    [i mod FRAMES], so that frames are evicted in the order of their
    loads. *)
Lemma fifo_cyclic_without_early_hit (input : list Z) :
  Forall is_fault (take (Z.to_nat FRAMES) (trace 0 init input)) ->
  ev_physical_page <$> filter is_fault (trace 0 init input)
  = (fun i => i mod FRAMES)
    <$> seqZ 0 (Z.of_nat (length (filter is_fault (trace 0 init input)))).
Proof.
  intros Hwarm. apply (fifo_cyclic_from input init init_fifo_ordered).
  change (total_addresses init) with 0. by rewrite Z.sub_0_r.
Qed.

(** ** FIFO on an input with an early hit *)

(** C1, on [fifo_failing_input]: [enqueue] is called by every iteration,
    so the second iteration, a TLB hit, still appends to the queue, which
    then holds frame 0 twice; the two evictions both return frame 0, and
    the second one does so although frame 0 was loaded by the iteration
    just before (index 65) while frame 1 has held its page since the
    iteration of index 2.  (Without a hit among the first [FRAMES]
    iterations the order is first in, first out:
    [fifo_cyclic_without_early_hit].) *)
Theorem fifo_victim_not_oldest :
  let t := trace 0 init fifo_failing_input in
  ev_tlb_hit <$> take 3 t = [false; true; false]
  /\ PageQueue.size (queue (exec 0 init [0])) = 1
  /\ PageQueue.size (queue (exec 0 init [0; 0])) = 2
  /\ ev_victim <$> drop 65 t = [Some 0; Some 0]
  /\ last_load (take 66 t) 0 = Some 65%nat
  /\ last_load (take 66 t) 1 = Some 2%nat.
Proof.
  cbn zeta. repeat split; vm_compute; reflexivity.
Qed.

(** ** LRU on a long input *)

Lemma step_hit_state s k :
  search_tlb (tlb s) (tlbindex s) 0 = 0 ->
  fst (step 1 (hit_state s k) 0) = hit_state s (k + 1).
Proof.
  intros Hhit. unfold step, resolve, tick, on_frame_used, hit_state.
  cbn [tlb tlbindex pagetable main_memory queue recentUsages total_addresses
       tlb_hits page_faults free_page time_count].
  change (Z.land (Z.shiftr 0 OFFSET_BITS) PAGE_MASK) with 0.
  rewrite Hhit. change (negb (0 =? -1)) with true. cbn iota.
  change (1 =? 0) with false. cbn iota.
  cbn [fst tlb tlbindex pagetable main_memory queue recentUsages total_addresses
       tlb_hits page_faults free_page time_count].
  rewrite store_store, <- !Z.add_assoc. reflexivity.
Qed.

Lemma exec_hit_state s (n : nat) :
  search_tlb (tlb s) (tlbindex s) 0 = 0 ->
  forall k, exec 1 (hit_state s k) (replicate n 0) = hit_state s (k + Z.of_nat n).
Proof.
  intros Hhit. induction n as [|n IH]; intros k.
  - cbn [replicate exec]. by rewrite Nat2Z.inj_0, Z.add_0_r.
  - cbn [replicate exec]. rewrite step_hit_state by done.
    rewrite IH. by replace (k + 1 + Z.of_nat n) with (k + Z.of_nat (S n)) by lia.
Qed.

Lemma exec_lru_long_prefix :
  exec 1 init lru_long_prefix
  = exec 1 (hit_state (exec 1 init [0]) (LRU_START - 1))
         (((fun k => k * PAGE_SIZE) <$> seqZ 1 63) ++ [0]).
Proof.
  unfold lru_long_prefix.
  change (0 :: ?l ++ ?r) with ([0] ++ l ++ r).
  rewrite !exec_app.
  assert (H0 : exec 1 init [0] = hit_state (exec 1 init [0]) 0)
    by (vm_compute; reflexivity).
  rewrite H0 at 1.
  rewrite exec_hit_state by (vm_compute; reflexivity).
  rewrite Z2Nat.id by (unfold LRU_START; lia).
  rewrite Z.add_0_l, <- exec_app. reflexivity.
Qed.

Lemma lru_long_prefix_state :
  recentUsages (exec 1 init lru_long_prefix)
  = (LRU_START + 64) :: seqZ (LRU_START + 1) 63
  /\ free_page (exec 1 init lru_long_prefix) = FRAMES
  /\ ev_victim (snd (step 1 (exec 1 init lru_long_prefix) (64 * PAGE_SIZE)))
     = Some 0.
Proof.
  rewrite exec_lru_long_prefix. repeat split; vm_compute; reflexivity.
Qed.

(** ** The start value of the LRU scan *)

Lemma lru_long_prefix_stamps :
  let u := recentUsages (exec 1 init lru_long_prefix) in
  (forall i, 0 <= i < FRAMES -> LRU_START <= load 0 u i)
  /\ load 0 u 0 = LRU_START + 64
  /\ load 0 u 1 = LRU_START + 1.
Proof.
  cbn zeta. destruct lru_long_prefix_state as (-> & _).
  split; [|split; vm_compute; reflexivity].
  intros i Hi.
  apply (load_Forall (fun t => LRU_START <= t)).
  - constructor; [lia |]. apply Forall_forall. intros t Ht.
    apply elem_of_seqZ in Ht. lia.
  - cbn [length]. rewrite length_seqZ. unfold FRAMES in *. lia.
Qed.

Lemma length_lru_long_prefix :
  Z.of_nat (length lru_long_prefix) = LRU_START + 64.
Proof.
  unfold lru_long_prefix.
  change (0 :: ?l ++ ?r) with ([0] ++ l ++ r).
  rewrite !length_app. change (length [0]) with 1%nat.
  rewrite (length_replicate (Z.to_nat (LRU_START - 1)) 0).
  rewrite length_fmap, length_seqZ.
  unfold LRU_START. lia.
Qed.

(** C2, on [lru_failing_input]: after more than ten million lines every
    time stamp is at least [LRU_START]; when the last line faults with all
    frames in use, the scan returns frame 0, although frame 0 was used by
    the iteration just before (time stamp [LRU_START + 64]) and frame 1
    carries the least time stamp ([LRU_START + 1]). *)
Theorem lru_victim_not_least_recent :
  let s := exec 1 init lru_long_prefix in
  free_page s = FRAMES
  /\ ev_victim <$> last (trace 1 init lru_failing_input) = Some (Some 0)
  /\ load 0 (recentUsages s) 0 = LRU_START + 64
  /\ load 0 (recentUsages s) 1 = LRU_START + 1.
Proof.
  cbn zeta. destruct lru_long_prefix_state as (_ & Hfree & Hv).
  destruct lru_long_prefix_stamps as (_ & H0 & H1).
  split; [exact Hfree |]. split; [|split; [exact H0 | exact H1]].
  unfold lru_failing_input. rewrite trace_snoc, last_snoc.
  cbn [fmap option_fmap option_map]. rewrite Hv. reflexivity.
Qed.

(** C10. The scan starts its running minimum at [LRU_START] = 10000000:
    - if some frame has a time stamp below [LRU_START], it returns the
      first frame of least time stamp;
    - if every time stamp is at least [LRU_START], it returns frame 0
      whatever the time stamps are;
    - on fewer than [LRU_START] lines every time stamp is below
      [LRU_START], so the scan returns the first frame of least time
      stamp at every point of the run;
    - a run of [LRU_START + 64] lines reaches time stamps that are all at
      least [LRU_START], with frame 0 not the least recently used. *)
Theorem lru_scan_start_value :
  (forall u i, 0 <= i < FRAMES -> load 0 u i < LRU_START ->
     least_recent u (get_least_recently_used_element u))
  /\ (forall u, (forall i, 0 <= i < FRAMES -> LRU_START <= load 0 u i) ->
        get_least_recently_used_element u = 0)
  /\ (forall rp input, Z.of_nat (length input) < LRU_START ->
        least_recent (recentUsages (exec rp init input))
          (get_least_recently_used_element (recentUsages (exec rp init input))))
  /\ (let u := recentUsages (exec 1 init lru_long_prefix) in
      Z.of_nat (length lru_long_prefix) = LRU_START + 64
      /\ (forall i, 0 <= i < FRAMES -> LRU_START <= load 0 u i)
      /\ get_least_recently_used_element u = 0
      /\ load 0 u 1 < load 0 u 0).
Proof.
  split; [apply lru_below_start |]. split; [apply lru_all_above_start |]. split.
  - intros rp input Hlen.
    pose proof (exec_wf rp input) as Hwf.
    destruct (counters_bounded rp input) as (_ & Htc & _).
    apply (lru_below_start _ 0); [unfold FRAMES; lia |].
    assert (H : (fun t => -1 <= t <= time_count (exec rp init input))
                  (load 0 (recentUsages (exec rp init input)) 0)).
    { apply load_Forall; [apply Hwf |].
      rewrite (wf_recentUsages_length _ _ Hwf). unfold FRAMES. lia. }
    cbn beta in H. lia.
  - cbn zeta. destruct lru_long_prefix_stamps as (Hall & H0 & H1).
    split; [apply length_lru_long_prefix |]. split; [exact Hall |].
    split; [apply lru_all_above_start; exact Hall |].
    rewrite H0, H1. lia.
Qed.

(** ** The report on an empty input *)

(** C8, as the program has it: on an input without addresses the report
    is produced (the floating-point division does not trap), the three
    counts are 0, and both rates are the quotient [0 / (1. * 0)], a NaN:
    the report prints the text of a NaN for them, not [0.000]. *)
Theorem empty_input_report rp :
  let r := final_report (exec rp init []) in
  rep_total_addresses r = 0 /\ rep_page_faults r = 0 /\ rep_tlb_hits r = 0
  /\ PrimFloat.is_nan (rep_page_fault_rate r) = true
  /\ PrimFloat.is_nan (rep_tlb_hit_rate r) = true
  /\ format_3f (rep_page_fault_rate r) = NotANumber
  /\ format_3f (rep_tlb_hit_rate r) = NotANumber.
Proof. cbn zeta. cbn [exec]. repeat split; vm_compute; reflexivity. Qed.

(** ** The statistics of a run *)

Lemma step_flags rp s a :
  ev_tlb_hit (snd (step rp s a)) = true -> ev_fault (snd (step rp s a)) = false.
Proof.
  destruct (step_frame rp s a)
    as [(_ & Hf & _)|[(Hn & _)|[(Hn & _)|[(Hn & _)|(Hn & _)]]]]; congruence.
Qed.

Lemma exec_statistics rp (input : list Z) : forall s,
  let s' := exec rp s input in
  let t := trace rp s input in
  page_faults s' = page_faults s + Z.of_nat (length (filter is_fault t))
  /\ tlb_hits s' = tlb_hits s + Z.of_nat (length (filter is_tlb_hit t))
  /\ tlbindex s' = tlbindex s + Z.of_nat (length (filter is_tlb_miss t))
  /\ (length (filter is_tlb_hit t) + length (filter is_tlb_miss t))%nat
     = length input
  /\ Forall (fun e => is_fault e -> is_tlb_miss e) t.
Proof.
  induction input as [|a l IH]; intros s; cbn zeta.
  - cbn [exec trace length]. rewrite !filter_nil. cbn [length].
    repeat split; try lia. constructor.
  - cbn [exec trace length]. specialize (IH (fst (step rp s a))).
    cbn zeta in IH. destruct IH as (Hpf & Hh & Hi & Hlen & Hall).
    rewrite Hpf, Hh, Hi, step_page_faults, step_tlb_hits. clear Hpf Hh Hi.
    pose proof (step_tlb rp s a) as Htlb. cbn zeta in Htlb.
    pose proof (step_flags rp s a) as Hex.
    assert (Hidx : tlbindex (fst (step rp s a))
                   = if ev_tlb_hit (snd (step rp s a)) then tlbindex s
                     else tlbindex s + 1).
    { destruct (ev_tlb_hit _); unfold add_to_tlb in Htlb;
        by injection Htlb as _ ->. }
    rewrite Hidx. clear Hidx Htlb.
    unfold is_fault, is_tlb_hit, is_tlb_miss in *.
    destruct (ev_tlb_hit (snd (step rp s a))) eqn:E1;
      destruct (ev_fault (snd (step rp s a))) eqn:E2;
      try (specialize (Hex eq_refl); discriminate).
    + rewrite (filter_cons_False (fun e => ev_fault e = true)) by congruence.
      rewrite (filter_cons_True (fun e => ev_tlb_hit e = true)) by congruence.
      rewrite (filter_cons_False (fun e => ev_tlb_hit e = false)) by congruence.
      cbn [length]. repeat split; try lia.
      constructor; [congruence | done].
    + rewrite (filter_cons_True (fun e => ev_fault e = true)) by congruence.
      rewrite (filter_cons_False (fun e => ev_tlb_hit e = true)) by congruence.
      rewrite (filter_cons_True (fun e => ev_tlb_hit e = false)) by congruence.
      cbn [length]. repeat split; try lia.
      constructor; [congruence | done].
    + rewrite (filter_cons_False (fun e => ev_fault e = true)) by congruence.
      rewrite (filter_cons_False (fun e => ev_tlb_hit e = true)) by congruence.
      rewrite (filter_cons_True (fun e => ev_tlb_hit e = false)) by congruence.
      cbn [length]. repeat split; try lia.
      constructor; [congruence | done].
Qed.

(** The statistics of the report count what happened: one address per
    line read, one page fault per iteration that took the fault branch,
    one TLB hit per iteration that took the hit branch and one TLB insert
    per iteration that did not; hits and faults exclude each other, so
    [page_faults + tlb_hits <= total_addresses]. *)
Theorem statistics_count_events rp (input : list Z) :
  let s := exec rp init input in
  let t := trace rp init input in
  total_addresses s = Z.of_nat (length input)
  /\ page_faults s = Z.of_nat (length (filter is_fault t))
  /\ tlb_hits s = Z.of_nat (length (filter is_tlb_hit t))
  /\ tlbindex s = total_addresses s - tlb_hits s
  /\ page_faults s + tlb_hits s <= total_addresses s
  /\ Forall (fun e => is_fault e -> is_tlb_miss e) t.
Proof.
  cbn zeta.
  destruct (exec_statistics rp input init) as (Hpf & Hh & Hi & Hlen & Hall).
  destruct (counters_bounded rp input) as (Ht & _ & _ & _ & _ & Hsum).
  change (page_faults init) with 0 in Hpf.
  change (tlb_hits init) with 0 in Hh.
  change (tlbindex init) with 0 in Hi.
  repeat split; try done; lia.
Qed.

(** ** The physical address printed *)

Lemma lor_shiftl_offset pp a :
  Z.lor (Z.shiftl pp OFFSET_BITS) (Z.land a OFFSET_MASK)
  = pp * PAGE_SIZE + Z.land a OFFSET_MASK.
Proof.
  assert (H : Z.land (Z.shiftl pp OFFSET_BITS) (Z.land a OFFSET_MASK) = 0).
  { rewrite (Z.land_comm a), Z.land_assoc, land_shiftl_mask. apply Z.land_0_l. }
  rewrite <- Z.lxor_lor by exact H.
  rewrite <- Z.add_nocarry_lxor by exact H.
  change OFFSET_BITS with 8. rewrite Z.shiftl_mul_pow2 by lia. reflexivity.
Qed.

(** The physical address printed is the index of the byte read from
    [main_memory], [physical_page * PAGE_SIZE + offset], and lies inside
    the physical memory. *)
Theorem physical_address_in_memory rp (input : list Z) :
  Forall (fun e =>
            ev_physical_address e = ev_physical_page e * PAGE_SIZE + ev_offset e
            /\ 0 <= ev_physical_address e < PHYSICAL_MEMORY_SIZE)
         (trace rp init input).
Proof.
  apply (trace_invariant (wf rp)); [apply step_wf | | apply init_wf].
  intros s a Hwf.
  destruct (step_frame_range rp s a Hwf) as [Hpp _].
  destruct (step_event_address rp s a) as (_ & Ho & _ & Hpa).
  pose proof (offset_range a) as Hor.
  rewrite Hpa, Ho, lor_shiftl_offset.
  split; [done |]. unfold PHYSICAL_MEMORY_SIZE, FRAMES, PAGE_SIZE in *. lia.
Qed.

(** ** The values printed *)

Lemma memcpy_Forall (P : Z -> Prop) dest d src s n :
  Forall P dest -> (forall i, P (src i)) -> Forall P (memcpy dest d src s n).
Proof.
  intros Hd Hs. unfold memcpy. destruct (_ && _); [|done].
  apply Forall_app. split; [by apply Forall_take |].
  apply Forall_app. split; [|by apply Forall_drop].
  apply Forall_fmap, Forall_forall. intros x _. apply Hs.
Qed.

(** When the backing store holds [signed char] values, so does the
    physical memory at every point of a run, and every value printed is
    one: a byte of the backing store or the initial 0. *)
Theorem values_are_signed_chars rp (input : list Z) :
  (forall i, signed_char (backing i)) ->
  Forall signed_char (main_memory (exec rp init input))
  /\ Forall (fun e => signed_char (ev_value e)) (trace rp init input).
Proof.
  intros Hb.
  assert (Hstep : forall s a, Forall signed_char (main_memory s) ->
                    Forall signed_char (main_memory (fst (step rp s a)))).
  { intros s a Hs. rewrite step_main_memory.
    destruct (ev_fault _); [by apply memcpy_Forall | done]. }
  assert (Hinit : Forall signed_char (main_memory init)).
  { apply Forall_replicate. unfold signed_char. lia. }
  split.
  - by apply (exec_invariant (fun s => Forall signed_char (main_memory s))).
  - apply (trace_invariant (fun s => Forall signed_char (main_memory s)));
      [done | | done].
    intros s a Hs. rewrite step_value.
    specialize (Hstep s a Hs).
    unfold load. destruct (0 <=? _); [|unfold signed_char; lia].
    destruct (_ !! _) as [v|] eqn:E; cbn [default]; [|unfold signed_char; lia].
    eapply Forall_lookup_1; [exact Hstep | exact E].
Qed.

(** ** The policy flag *)

Lemma step_nonzero_policy rp s a : rp <> 0 -> step rp s a = step 1 s a.
Proof.
  intros Hrp. unfold step, resolve, handle_fault, on_frame_used.
  destruct (rp =? 0) eqn:E; zbool; [done |].
  change (1 =? 0) with false. reflexivity.
Qed.

(** The policy flag is only compared with 0: every non-zero value of
    [rp] gives the run that [rp = 1] gives (LRU), line for line. *)
Theorem nonzero_policy_is_lru rp (input : list Z) :
  rp <> 0 ->
  trace rp init input = trace 1 init input
  /\ exec rp init input = exec 1 init input.
Proof.
  intros Hrp. generalize init as s.
  induction input as [|a l IH]; intros s; cbn [trace exec]; [done |].
  rewrite (step_nonzero_policy rp s a Hrp).
  destruct (IH (fst (step 1 s a))) as [-> ->]. done.
Qed.

(** ** Frames and their owners *)

Lemma clear_owner_Forall_below pt pp k n b :
  Forall (fun f => f = -1 \/ 0 <= f < b) pt ->
  Forall (fun f => f = -1 \/ 0 <= f < b) (clear_owner pt pp k n).
Proof.
  intros Hpt.
  destruct (clear_owner_cases pt pp k n) as [->|(m & _ & _ & ->)]; [done |].
  apply store_Forall; [done | by left].
Qed.

Lemma init_frames_owned : frames_owned init.
Proof.
  unfold frames_owned, init.
  cbn [page_faults free_page pagetable].
  split; [lia |]. split; [done |]. split; [|intros f Hf; lia].
  apply Forall_replicate. by left.
Qed.

Lemma step_frames_owned rp s a :
  wf rp s -> pagetable_ok (pagetable s) -> frames_owned s ->
  frames_owned (fst (step rp s a)).
Proof.
  intros Hwf Hok (Hpf & Hfree & Hall & Hown).
  pose proof (wf_free_page _ _ Hwf) as Hfr.
  pose proof (wf_pagetable_length _ _ Hwf) as Hlen.
  destruct (step_frame_range rp s a Hwf) as [Hpp _].
  destruct (step_event_address rp s a) as (_ & _ & Hlp & _).
  pose proof (logical_page_range a) as Hlpr. rewrite <- Hlp in Hlpr.
  unfold frames_owned.
  rewrite step_page_faults, step_free_page.
  destruct (step_pagetable rp s a) as [[Hf ->]|(Hf & Habs & ->)]; rewrite Hf.
  - cbn [andb]. done.
  - cbn [andb].
    set (e := snd (step rp s a)) in *.
    set (pp := ev_physical_page e) in *. set (lp := ev_logical_page e) in *.
    assert (Hsrc : (free_page s < FRAMES /\ pp = free_page s)
                   \/ free_page s = FRAMES).
    { destruct (step_frame rp s a)
        as [(_ & Hx & _)|[(_ & Hx & _)|[(_ & _ & _ & H1 & H2)
           |[(_ & _ & _ & H1 & _)|(_ & _ & _ & H1 & _)]]]];
        fold e in Hx || fold e pp in H1, H2 || fold e in H1;
        [congruence | congruence | by left | right; lia | right; lia]. }
    set (free' := if free_page s <? FRAMES then u8 (free_page s + 1)
                  else free_page s).
    assert (Hfree' : free' = Z.min (page_faults s + 1) FRAMES
                     /\ free_page s <= free' /\ 0 <= pp < free'
                     /\ forall f, 0 <= f < free' -> f <> pp -> 0 <= f < free_page s).
    { unfold free'. destruct (free_page s <? FRAMES) eqn:E; zbool.
      - rewrite u8_small by (unfold FRAMES in *; lia).
        destruct Hsrc as [[_ Hs]|Hs]; [|lia]. repeat split; lia.
      - repeat split; try lia. }
    destruct Hfree' as (Hf1 & Hf2 & Hf3 & Hf4).
    split; [lia |]. split; [done |]. split.
    + apply store_Forall; [|by right].
      apply clear_owner_Forall_below.
      eapply Forall_impl; [exact Hall |]. cbn beta. intros f Hx. lia.
    + intros f Hf'.
      assert (Hin : 0 <= lp < Z.of_nat (length
                (clear_owner (pagetable s) pp 0 (Z.to_nat PAGES)))).
      { rewrite length_clear_owner, Hlen. unfold PAGES in *. lia. }
      destruct (decide (f = pp)) as [->|Hne].
      * exists lp. split; [done |]. by apply load_store_eq.
      * destruct (Hown f (Hf4 f Hf' Hne)) as (p & Hp & Hl).
        exists p. split; [done |].
        assert (p <> lp) by (intros ->; lia).
        rewrite load_store_ne by done.
        rewrite clear_owner_other; [done | by rewrite Hl].
Qed.

(** At every point of a run, [free_page] is the number of page faults,
    capped at [FRAMES]; the page table refers to frames below [free_page]
    only, and each of these frames is the frame of exactly one page. *)
Theorem allocated_frames_owned rp (input : list Z) :
  let s := exec rp init input in
  free_page s = Z.min (page_faults s) FRAMES
  /\ (forall p, 0 <= p < PAGES ->
        load 0 (pagetable s) p = -1 \/ 0 <= load 0 (pagetable s) p < free_page s)
  /\ (forall f, 0 <= f < free_page s ->
        exists p, 0 <= p < PAGES /\ load 0 (pagetable s) p = f
                  /\ forall p', 0 <= p' < PAGES ->
                       load 0 (pagetable s) p' = f -> p' = p).
Proof.
  cbn zeta.
  assert (H : wf rp (exec rp init input)
              /\ pagetable_ok (pagetable (exec rp init input))
              /\ frames_owned (exec rp init input)).
  { apply (exec_invariant
             (fun s => wf rp s /\ pagetable_ok (pagetable s) /\ frames_owned s)).
    - intros s a (H1 & H2 & H3). split; [by apply step_wf |].
      split; [by apply step_pagetable_ok | by apply step_frames_owned].
    - split; [apply init_wf |].
      split; [apply init_pagetable_ok | apply init_frames_owned]. }
  destruct H as (Hwf & [Hlen Hone] & (_ & Hfree & Hall & Hown)).
  split; [done |]. split.
  - intros p Hp.
    apply (load_Forall (fun f => f = -1 \/ 0 <= f < free_page (exec rp init input)));
      [done |]. rewrite Hlen. unfold PAGES in *. lia.
  - intros f Hf. destruct (Hown f Hf) as (p & Hp & Hl).
    exists p. split; [done |]. split; [done |].
    intros p' Hp' Hl'. destruct (decide (p' = p)) as [|Hne]; [done |].
    exfalso. apply (Hone p' p Hp' Hp Hne); lia.
Qed.

(** ** The TLB against the page table *)

Lemma first_match_none lp (es : list tlbentry) :
  Forall (fun e => physical e <> -1) es -> first_match lp es = -1 ->
  Forall (fun e => logical e <> lp) es.
Proof.
  induction es as [|e es IH]; intros Hp Hm; [constructor |].
  apply Forall_cons in Hp as [Hp1 Hp]. cbn [first_match] in Hm.
  destruct (logical e =? lp) eqn:E; zbool; [done |].
  constructor; [done | by apply IH].
Qed.

Lemma first_match_some lp (es : list tlbentry) :
  first_match lp es <> -1 ->
  exists e, e ∈ es /\ logical e = lp /\ physical e = first_match lp es.
Proof.
  induction es as [|e es IH]; intros Hm; [done |].
  cbn [first_match] in *.
  destruct (logical e =? lp) eqn:E; zbool.
  - exists e. split; [left | done].
  - destruct (IH Hm) as (e' & Hin & Hl & Hp).
    exists e'. split; [by right | done].
Qed.

Lemma step_miss rp s a :
  ev_tlb_hit (snd (step rp s a)) = false ->
  search_tlb (tlb s) (tlbindex s) (ev_logical_page (snd (step rp s a))) = -1.
Proof. step_cases; intros; (done || lia). Qed.

Lemma search_tlb_live rp (input : list Z) lp :
  search_tlb (tlb (exec rp init input)) (tlbindex (exec rp init input)) lp
  = first_match (u8 lp) (tlb_live (trace rp init input)).
Proof.
  pose proof (search_tlb_after (tlb_inserts (trace rp init input)) lp) as Hs.
  rewrite <- (exec_tlb_after rp input) in Hs. exact Hs.
Qed.

Lemma tlb_inserts_snoc (t : list event) e :
  tlb_inserts (t ++ [e])
  = tlb_inserts t
    ++ (if ev_tlb_hit e then [] else [(ev_logical_page e, ev_physical_page e)]).
Proof.
  unfold tlb_inserts. rewrite filter_app, fmap_app. f_equal.
  destruct (ev_tlb_hit e) eqn:E.
  - by rewrite filter_cons_False by (unfold is_tlb_miss; congruence).
  - by rewrite filter_cons_True by exact E.
Qed.

(** An iteration that hits leaves the live entries; one that misses
    appends its entry and drops the oldest one when there are
    [TLB_SIZE]. *)
Lemma tlb_live_snoc (t : list event) e :
  if ev_tlb_hit e then tlb_live (t ++ [e]) = tlb_live t
  else exists k,
    tlb_live (t ++ [e])
    = drop k (tlb_live t) ++ [stored (ev_logical_page e, ev_physical_page e)].
Proof.
  unfold tlb_live. rewrite tlb_inserts_snoc.
  destruct (ev_tlb_hit e); [by rewrite app_nil_r |].
  rewrite fmap_app. cbn [fmap list_fmap].
  set (h := stored <$> tlb_inserts t).
  rewrite length_app. cbn [length].
  set (k := (length h - Nat.min (Z.to_nat TLB_SIZE) (length h))%nat).
  set (k' := (length h + 1 - Nat.min (Z.to_nat TLB_SIZE) (length h + 1))%nat).
  exists (k' - k)%nat.
  rewrite drop_app_le by (unfold k', TLB_SIZE; lia).
  rewrite drop_drop. do 2 f_equal. unfold k, k', TLB_SIZE. lia.
Qed.

Lemma stored_small lp pp :
  0 <= lp < PAGES -> 0 <= pp < FRAMES ->
  stored (lp, pp) = {| logical := lp; physical := pp |}.
Proof.
  intros Hl Hp. unfold stored. cbn [fst snd].
  rewrite !u8_small; unfold PAGES, FRAMES in *; (done || lia).
Qed.

(** The live entries of the TLB agree with the page table and carry
    distinct pages: an entry is inserted only when the probe for its page
    found nothing. *)
Lemma tlb_live_ok rp (input : list Z) :
  Forall (tlb_entry_ok (pagetable (exec rp init input)))
         (tlb_live (trace rp init input))
  /\ NoDup (logical <$> tlb_live (trace rp init input)).
Proof.
  induction input as [|a l IH] using rev_ind.
  - cbn. split; constructor.
  - destruct IH as [IHok IHnd].
    pose proof (exec_wf rp l) as Hwf.
    pose proof (search_tlb_live rp l) as Hsearch.
    rewrite exec_app, trace_snoc. cbn [exec].
    set (s := exec rp init l) in *. set (e := snd (step rp s a)).
    pose proof (tlb_live_snoc (trace rp init l) e) as Hlive.
    destruct (step_frame_range rp s a Hwf) as [Hpp _]. fold e in Hpp.
    destruct (step_event_address rp s a) as (_ & _ & Hlp & _).
    pose proof (logical_page_range a) as Hlpr. rewrite <- Hlp in Hlpr.
    fold e in Hlpr. clear Hlp.
    pose proof (step_pagetable rp s a) as Hpt. cbn zeta in Hpt. fold e in Hpt.
    pose proof (step_flags rp s a) as Hfl. fold e in Hfl.
    destruct (ev_tlb_hit e) eqn:Ehit.
    + rewrite Hlive. destruct Hpt as [[_ ->]|(Hf & _)]; [done |].
      rewrite Hfl in Hf; done.
    + destruct Hlive as [k ->].
      pose proof (step_miss rp s a Ehit) as Hmiss. fold e in Hmiss.
      rewrite Hsearch, u8_small in Hmiss by (unfold PAGES in *; lia).
      assert (Hphys : Forall (fun e0 => physical e0 <> -1)
                             (tlb_live (trace rp init l))).
      { eapply Forall_impl; [exact IHok |]. intros e0 (_ & H & _).
        unfold FRAMES in *. lia. }
      pose proof (first_match_none _ _ Hphys Hmiss) as Hother.
      rewrite stored_small by done.
      split.
      * apply Forall_app. split.
        -- apply Forall_drop.
           apply Forall_forall. intros e0 Hin.
           pose proof (proj1 (Forall_forall _ _) IHok e0 Hin) as (H1 & H2 & H3).
           pose proof (proj1 (Forall_forall _ _) Hother e0 Hin) as Hne.
           split; [done |]. split; [done |].
           destruct Hpt as [[_ ->]|(_ & _ & ->)]; [done |].
           rewrite load_store_ne by done.
           destruct (clear_owner_cases (pagetable s) (ev_physical_page e) 0
                       (Z.to_nat PAGES)) as [->|(m & _ & _ & ->)]; [done |].
           rewrite load_store. case_decide; [by right | done].
        -- constructor; [|constructor].
           split; [done |]. split; [done |]. cbn [logical physical].
           destruct Hpt as [[Hf ->]|(_ & _ & ->)].
           ++ left. destruct (step_frame rp s a)
                as [(Hx & _)|[(_ & _ & _ & _ & Hx & _)|[(_ & Hx & _)
                   |[(_ & Hx & _)|(_ & Hx & _)]]]]; fold e in Hx; congruence.
           ++ left. apply load_store_eq.
              rewrite length_clear_owner, (wf_pagetable_length _ _ Hwf).
              unfold PAGES in *. lia.
      * rewrite fmap_app. cbn [fmap list_fmap logical].
        apply NoDup_app. split; [|split].
        -- rewrite fmap_drop. eapply sublist_NoDup; [exact IHnd | apply sublist_drop].
        -- intros x Hx Hx'. apply list_elem_of_singleton in Hx'. subst x.
           apply list_elem_of_fmap in Hx as (e0 & He0 & Hin).
           apply (proj1 (Forall_forall _ _) Hother e0); [|done].
           by apply (subseteq_drop k).
        -- apply NoDup_singleton.
Qed.

(** ** What a translation reads *)

Lemma init_memory_coherent : memory_coherent init.
Proof.
  intros p Hp Hne. exfalso. apply Hne.
  unfold init, load. cbn [pagetable]. destruct (0 <=? p) eqn:E; zbool; [|lia].
  rewrite lookup_replicate_2; [done | unfold PAGES in *; lia].
Qed.

(** A page fault puts the page into its frame, and leaves the frames of
    the other pages alone. *)
Lemma step_memory_coherent rp s a :
  wf rp s -> pagetable_ok (pagetable s) -> memory_coherent s ->
  memory_coherent (fst (step rp s a)).
Proof.
  intros Hwf Hok Hcoh p Hp Hne.
  pose proof (wf_pagetable_length _ _ Hwf) as Hlen.
  destruct (step_frame_range rp s a Hwf) as [Hpp _].
  destruct (step_event_address rp s a) as (_ & _ & Hlp & _).
  pose proof (logical_page_range a) as Hlpr. rewrite <- Hlp in Hlpr. clear Hlp.
  assert (Hframe : forall q, 0 <= q < PAGES -> load 0 (pagetable s) q <> -1 ->
                     0 <= load 0 (pagetable s) q < FRAMES).
  { intros q Hq Hn.
    assert (H : (fun f => f = -1 \/ 0 <= f < FRAMES) (load 0 (pagetable s) q)).
    { apply load_Forall; [apply Hwf |]. rewrite Hlen. unfold PAGES in *. lia. }
    cbn beta in H. lia. }
  destruct (step_pagetable rp s a) as [[Hf Hpt]|(Hf & Habs & Hpt)];
    rewrite Hpt in *.
  - apply step_keeps_frame; [done | by apply Hframe | | by apply Hcoh].
    intros [Hx _]. congruence.
  - destruct (decide (p = ev_logical_page (snd (step rp s a)))) as [->|Hnp].
    + rewrite load_store_eq
        by (rewrite length_clear_owner, Hlen; unfold PAGES in *; lia).
      by apply step_fault_holds.
    + rewrite load_store_ne in * by done.
      assert (Hsame : load 0 (clear_owner (pagetable s)
                        (ev_physical_page (snd (step rp s a))) 0 (Z.to_nat PAGES)) p
                      = load 0 (pagetable s) p).
      { destruct (clear_owner_cases (pagetable s)
                    (ev_physical_page (snd (step rp s a))) 0 (Z.to_nat PAGES))
          as [Hc|(m & _ & _ & Hc)]; rewrite Hc in *; [done |].
        rewrite load_store in *. case_decide; [done | done]. }
      assert (Hother : load 0 (pagetable s) p
                       <> ev_physical_page (snd (step rp s a))).
      { rewrite <- Hsame. apply clear_owner_unbound; [done | lia | done]. }
      rewrite Hsame in *.
      apply step_keeps_frame; [done | by apply Hframe | | by apply Hcoh].
      intros [_ Hx]. congruence.
Qed.

Lemma exec_coherent rp (input : list Z) :
  wf rp (exec rp init input)
  /\ pagetable_ok (pagetable (exec rp init input))
  /\ memory_coherent (exec rp init input).
Proof.
  apply (exec_invariant
           (fun s => wf rp s /\ pagetable_ok (pagetable s) /\ memory_coherent s)).
  - intros s a (H1 & H2 & H3). split; [by apply step_wf |].
    split; [by apply step_pagetable_ok | by apply step_memory_coherent].
  - split; [apply init_wf |].
    split; [apply init_pagetable_ok | apply init_memory_coherent].
Qed.

(** After an iteration that missed the TLB, the page read is bound to the
    frame used. *)
Lemma step_miss_bound rp s a :
  wf rp s -> ev_tlb_hit (snd (step rp s a)) = false ->
  load 0 (pagetable (fst (step rp s a))) (ev_logical_page (snd (step rp s a)))
  = ev_physical_page (snd (step rp s a)).
Proof.
  intros Hwf Hmiss.
  destruct (step_event_address rp s a) as (_ & _ & Hlp & _).
  pose proof (logical_page_range a) as Hlpr. rewrite <- Hlp in Hlpr. clear Hlp.
  destruct (step_pagetable rp s a) as [[Hf ->]|(Hf & _ & ->)].
  - destruct (step_frame rp s a)
      as [(Hx & _)|[(_ & _ & _ & _ & Hx & _)|[(_ & Hx & _)
         |[(_ & Hx & _)|(_ & Hx & _)]]]]; congruence.
  - apply load_store_eq.
    rewrite length_clear_owner, (wf_pagetable_length _ _ Hwf).
    unfold PAGES in *. lia.
Qed.

(** A translation that goes through the page table, with or without a
    page fault, prints the byte of the backing store at the logical
    address (taken modulo the size of the logical memory). *)
Theorem table_translation_reads_backing rp (input : list Z) :
  Forall (fun e =>
            ev_tlb_hit e = false ->
            ev_value e = backing (ev_logical_address e mod LOGICAL_MEMORY_SIZE))
         (trace rp init input).
Proof.
  apply (trace_invariant
           (fun s => wf rp s /\ pagetable_ok (pagetable s) /\ memory_coherent s)).
  - intros s a (H1 & H2 & H3). split; [by apply step_wf |].
    split; [by apply step_pagetable_ok | by apply step_memory_coherent].
  - intros s a (Hwf & Hok & Hcoh) Hmiss.
    pose proof (step_memory_coherent rp s a Hwf Hok Hcoh) as Hcoh'.
    pose proof (step_miss_bound rp s a Hwf Hmiss) as Hb.
    destruct (step_frame_range rp s a Hwf) as [Hpp _].
    destruct (step_event_address rp s a) as (Ha & Ho & Hlp & _).
    pose proof (logical_page_range a) as Hlpr. rewrite <- Hlp in Hlpr.
    rewrite step_value, Ha, <- split_address, <- Hlp, <- Ho.
    specialize (Hcoh' _ Hlpr). rewrite Hb in Hcoh'.
    apply Hcoh'; [lia |]. rewrite Ho. apply offset_range.
  - split; [apply init_wf |].
    split; [apply init_pagetable_ok | apply init_memory_coherent].
Qed.

(** A TLB hit returns the frame that the page table has for the page,
    unless the page has lost its frame since the entry was inserted (the
    TLB is never invalidated); when the page still has its frame, the hit
    prints the byte of the backing store at the logical address. *)
Theorem tlb_hit_frame rp (input : list Z) (a : Z) :
  let s := exec rp init input in
  let e := snd (step rp s a) in
  ev_tlb_hit e = true ->
  (load 0 (pagetable s) (ev_logical_page e) = ev_physical_page e
   \/ load 0 (pagetable s) (ev_logical_page e) = -1)
  /\ (load 0 (pagetable s) (ev_logical_page e) <> -1 ->
      ev_value e = backing (a mod LOGICAL_MEMORY_SIZE)).
Proof.
  intros s e Hhit.
  destruct (exec_coherent rp input) as (Hwf & Hok & Hcoh). fold s in Hwf, Hok, Hcoh.
  destruct (tlb_live_ok rp input) as [Hlive _]. fold s in Hlive.
  destruct (step_event_address rp s a) as (_ & Ho & Hlp & _). fold e in Ho, Hlp.
  pose proof (logical_page_range a) as Hlpr. rewrite <- Hlp in Hlpr.
  assert (Hfound : load 0 (pagetable s) (ev_logical_page e) = ev_physical_page e
                   \/ load 0 (pagetable s) (ev_logical_page e) = -1).
  { destruct (step_frame rp s a)
      as [(_ & _ & _ & Hpp & Hne)|[(Hx & _)|[(Hx & _)|[(Hx & _)|(Hx & _)]]]];
      fold e in Hpp, Hne || fold e in Hx; try congruence.
    unfold s in Hpp. rewrite search_tlb_live in Hpp.
    rewrite u8_small in Hpp by (unfold PAGES in *; lia).
    rewrite Hpp in Hne.
    destruct (first_match_some _ _ Hne) as (e0 & Hin & Hl & Hp).
    destruct (proj1 (Forall_forall _ _) Hlive e0 Hin) as (_ & _ & H).
    rewrite Hl, Hp, <- Hpp in H. exact H. }
  split; [exact Hfound |]. intros Hres.
  destruct Hfound as [Hfound|]; [|done].
  pose proof (Hcoh _ Hlpr Hres) as Hholds. rewrite Hfound in Hholds.
  pose proof (step_value rp s a) as Hv. cbn zeta in Hv. fold e in Hv.
  rewrite Hv, step_main_memory, (step_flags rp s a Hhit). fold e.
  rewrite <- split_address, <- Hlp, <- Ho.
  apply Hholds. rewrite Ho. apply offset_range.
Qed.

(** The live entries of the TLB array, the slots of the last
    [min (TLB_SIZE, tlbindex)] inserts, carry distinct logical pages. *)
Theorem tlb_entries_distinct rp (input : list Z) (i j : Z) :
  let s := exec rp init input in
  0 <= i -> tlbindex s - TLB_SIZE <= i -> i < j -> j < tlbindex s ->
  logical (load {| logical := 0; physical := 0 |} (tlb s) (Z.rem i TLB_SIZE))
  <> logical (load {| logical := 0; physical := 0 |} (tlb s) (Z.rem j TLB_SIZE)).
Proof.
  intros s Hi0 Hi Hij Hj Heq.
  destruct (tlb_live_ok rp input) as [_ Hnd].
  pose proof (exec_tlb_after rp input) as Hst. fold s in Hst.
  destruct (tlb_after_slots (tlb_inserts (trace rp init input)))
    as (Hidx & _ & Hslots).
  rewrite <- Hst in Hidx, Hslots. cbn [fst snd] in Hidx, Hslots.
  unfold tlb_live in Hnd. cbn zeta in Hnd.
  set (h := tlb_inserts (trace rp init input)) in *.
  rewrite length_fmap in Hnd.
  set (k := (length h - Nat.min (Z.to_nat TLB_SIZE) (length h))%nat) in *.
  pose proof (Hslots (Z.to_nat i) ltac:(lia)) as Hsi.
  pose proof (Hslots (Z.to_nat j) ltac:(lia)) as Hsj.
  rewrite Z2Nat.id in Hsi, Hsj by lia.
  assert (Hk : (k <= Z.to_nat i)%nat) by (unfold k, TLB_SIZE in *; lia).
  assert (Hlook : forall m : nat, (k <= m)%nat ->
            (logical <$> drop k (stored <$> h)) !! (m - k)%nat
            = logical <$> (stored <$> h !! m)).
  { intros m Hm. rewrite list_lookup_fmap, lookup_drop, list_lookup_fmap.
    by replace (k + (m - k))%nat with m by lia. }
  pose proof (Hlook (Z.to_nat i) Hk) as Li.
  pose proof (Hlook (Z.to_nat j) ltac:(lia)) as Lj.
  rewrite <- Hsi in Li. rewrite <- Hsj in Lj. cbn [fmap option_fmap option_map] in Li, Lj.
  rewrite <- Heq in Lj.
  pose proof (proj1 (NoDup_alt _) Hnd _ _ _ Li Lj). lia.
Qed.

(** ** LRU time stamps *)

Lemma last_use_from_snoc (t : list event) e f : forall i acc,
  last_use_from i (t ++ [e]) f acc
  = if ev_physical_page e =? f then i + Z.of_nat (length t)
    else last_use_from i t f acc.
Proof.
  induction t as [|e0 t IH]; intros i acc.
  - cbn [app last_use_from length]. destruct (_ =? _); [lia | done].
  - cbn [app last_use_from length]. rewrite IH.
    destruct (_ =? _); [lia | done].
Qed.

Lemma stamps_last_use rp (input : list Z) (f : Z) :
  rp <> 0 -> 0 <= f < FRAMES ->
  load 0 (recentUsages (exec rp init input)) f = last_use (trace rp init input) f.
Proof.
  intros Hrp Hf. induction input as [|a l IH] using rev_ind.
  - unfold init, load. cbn [exec trace recentUsages last_use last_use_from].
    destruct (0 <=? f) eqn:E; zbool; [|lia].
    rewrite lookup_replicate_2; [done | unfold FRAMES in *; lia].
  - rewrite exec_app, trace_snoc. cbn [exec].
    unfold last_use. rewrite last_use_from_snoc. fold (last_use (trace rp init l) f).
    pose proof (exec_wf rp l) as Hwf.
    destruct (counters_bounded rp l) as (_ & Htc & _).
    destruct (step_frame_range rp _ a Hwf) as [Hpp _].
    rewrite step_recentUsages, length_trace, Htc.
    assert (E : (rp =? 0) = false) by (by apply Z.eqb_neq). rewrite E.
    rewrite load_store, (wf_recentUsages_length _ _ Hwf).
    destruct (ev_physical_page _ =? f) eqn:Epp; zbool.
    + case_decide as Hd; [lia |]. exfalso. apply Hd. unfold FRAMES in *. lia.
    + case_decide as Hd; [lia | exact IH].
Qed.

(** Under LRU the time stamp of a frame is the number of the last
    iteration that used it (by a TLB hit, a page-table hit or a fault),
    and [-1] for a frame never used; it is at most the number of lines
    read. *)
Theorem lru_stamps_are_last_uses rp (input : list Z) (f : Z) :
  rp <> 0 -> 0 <= f < FRAMES ->
  load 0 (recentUsages (exec rp init input)) f = last_use (trace rp init input) f
  /\ -1 <= last_use (trace rp init input) f <= Z.of_nat (length input).
Proof.
  intros Hrp Hf. rewrite <- (stamps_last_use rp input f Hrp Hf).
  split; [reflexivity |].
  pose proof (exec_wf rp input) as Hwf.
  destruct (counters_bounded rp input) as (_ & Htc & _).
  assert (H : (fun t => -1 <= t <= time_count (exec rp init input))
                (load 0 (recentUsages (exec rp init input)) f)).
  { apply load_Forall; [apply Hwf |].
    rewrite (wf_recentUsages_length _ _ Hwf). unfold FRAMES in *. lia. }
  cbn beta in H. lia.
Qed.

(** On fewer than [LRU_START] lines, the victim that LRU selects is the
    frame whose last use is the oldest: no frame was used longer ago. *)
Theorem lru_victim_is_least_recently_used rp (input : list Z) (a v : Z) :
  rp <> 0 -> Z.of_nat (length input) < LRU_START ->
  ev_victim (snd (step rp (exec rp init input) a)) = Some v ->
  0 <= v < FRAMES
  /\ forall f, 0 <= f < FRAMES ->
       last_use (trace rp init input) v <= last_use (trace rp init input) f.
Proof.
  intros Hrp Hlen Hv.
  pose proof (exec_wf rp input) as Hwf.
  destruct (counters_bounded rp input) as (_ & Htc & _).
  assert (Hvic : v = get_least_recently_used_element
                       (recentUsages (exec rp init input))).
  { destruct (step_frame rp (exec rp init input) a)
      as [(_ & _ & Hx & _)|[(_ & _ & Hx & _)|[(_ & _ & Hx & _)
         |[(_ & _ & _ & _ & Hx & _)|(_ & _ & Hx & _ & _ & Hpp)]]]];
      try congruence. }
  assert (Hlow : load 0 (recentUsages (exec rp init input)) 0 < LRU_START).
  { assert (H : (fun t => -1 <= t <= time_count (exec rp init input))
                  (load 0 (recentUsages (exec rp init input)) 0)).
    { apply load_Forall; [apply Hwf |].
      rewrite (wf_recentUsages_length _ _ Hwf). unfold FRAMES. lia. }
    cbn beta in H. lia. }
  destruct (lru_below_start _ 0 ltac:(unfold FRAMES; lia) Hlow)
    as (Hr & Hmin & _).
  rewrite <- Hvic in Hr, Hmin.
  split; [done |]. intros f Hf.
  rewrite <- !(stamps_last_use rp input) by done.
  by apply Hmin.
Qed.

(** ** What a run leaves untouched *)

(** Each policy keeps to its own state: a FIFO run never writes a time
    stamp, and an LRU run never touches the queue. *)
Theorem policies_keep_apart (input : list Z) :
  recentUsages (exec 0 init input) = replicate (Z.to_nat FRAMES) (-1)
  /\ queue (exec 1 init input) = initQueue heap FRAMES.
Proof.
  split.
  - apply (exec_invariant
             (fun s => recentUsages s = replicate (Z.to_nat FRAMES) (-1)));
      [|reflexivity].
    intros s a Hs. by rewrite step_recentUsages.
  - apply (exec_invariant (fun s => queue s = initQueue heap FRAMES));
      [|reflexivity].
    intros s a Hs. by rewrite step_queue.
Qed.

(** The frames not yet allocated keep their initial zeros: a page load
    writes the [PAGE_SIZE] bytes of its frame and nothing else. *)
Theorem unallocated_frames_are_zero rp (input : list Z) (i : Z) :
  free_page (exec rp init input) * PAGE_SIZE <= i < PHYSICAL_MEMORY_SIZE ->
  load 0 (main_memory (exec rp init input)) i = 0.
Proof.
  revert i.
  assert (H : wf rp (exec rp init input)
              /\ forall i, free_page (exec rp init input) * PAGE_SIZE <= i
                           < PHYSICAL_MEMORY_SIZE ->
                  load 0 (main_memory (exec rp init input)) i = 0);
    [|apply H].
  apply (exec_invariant
           (fun s => wf rp s
                     /\ forall i, free_page s * PAGE_SIZE <= i < PHYSICAL_MEMORY_SIZE ->
                          load 0 (main_memory s) i = 0)).
  - intros s a [Hwf Hz]. split; [by apply step_wf |]. intros i.
    pose proof (wf_free_page _ _ Hwf) as Hfr.
    destruct (step_frame_range rp s a Hwf) as [Hpp _].
    rewrite step_free_page, step_main_memory.
    destruct (ev_fault (snd (step rp s a))) eqn:Ef; cbn [andb]; [|apply Hz].
    destruct (free_page s <? FRAMES) eqn:E; zbool.
    + rewrite u8_small by (unfold FRAMES in *; lia). intros Hi.
      destruct (step_frame rp s a)
        as [(_ & Hx & _)|[(_ & Hx & _)|[(_ & _ & _ & _ & Hp)
           |[(_ & _ & _ & Hx & _)|(_ & _ & _ & Hx & _)]]]];
        [congruence | congruence | | lia | lia].
      rewrite load_memcpy_outside;
        [apply Hz | unfold PAGE_SIZE; lia |]; unfold PAGE_SIZE in *; lia.
    + intros Hi. unfold PHYSICAL_MEMORY_SIZE, FRAMES, PAGE_SIZE in *. lia.
  - split; [apply init_wf |]. intros i Hi.
    unfold init, load. cbn [main_memory free_page] in *.
    destruct (0 <=? i) eqn:E; zbool; [|done].
    rewrite lookup_replicate_2; [done |].
    unfold PHYSICAL_MEMORY_SIZE, FRAMES, PAGE_SIZE in *. lia.
Qed.

End Properties.

(** * The content of the heap *)

Lemma queue_sim_size q1 q2 :
  queue_sim q1 q2 -> PageQueue.size q1 = PageQueue.size q2.
Proof.
  intros ((_ & _ & _ & H1 & _) & (_ & _ & _ & H2 & _) & _ & Hc).
  apply (f_equal length) in Hc. unfold queue_contents in Hc.
  rewrite !length_fmap, !length_seqZ in Hc. cbn zeta in *. lia.
Qed.

Lemma queue_sim_dequeue q1 q2 :
  queue_sim q1 q2 ->
  fst (dequeue q1) = fst (dequeue q2)
  /\ queue_sim (snd (dequeue q1)) (snd (dequeue q2)).
Proof.
  intros Hsim. pose proof Hsim as (Hw1 & Hw2 & Hnf & Hc).
  destruct (dequeue_contents q1 Hw1) as [Hw1' H1].
  destruct (dequeue_contents q2 Hw2) as [Hw2' H2].
  assert (Hnf' : PageQueue.numberOfFrames (snd (dequeue q1))
                 = PageQueue.numberOfFrames (snd (dequeue q2))).
  { unfold dequeue.
    destruct (negb (PageQueue.size q1 =? 0));
      destruct (negb (PageQueue.size q2 =? 0));
      cbn [snd PageQueue.numberOfFrames]; exact Hnf. }
  rewrite Hc in H1. destruct (queue_contents q2) as [|x rest].
  - rewrite H1, H2. cbn [fst snd]. split; [reflexivity | exact Hsim].
  - destruct H1 as [-> H1], H2 as [-> H2].
    split; [reflexivity |]. split; [exact Hw1' |]. split; [exact Hw2' |].
    split; [exact Hnf' |]. by rewrite H1, H2.
Qed.

Lemma queue_sim_enqueue q1 q2 x :
  queue_sim q1 q2 -> queue_sim (enqueue q1 x) (enqueue q2 x).
Proof.
  intros Hsim. pose proof (queue_sim_size _ _ Hsim) as Hsz.
  destruct Hsim as (Hw1 & Hw2 & Hnf & Hc).
  destruct (enqueue_contents q1 x Hw1) as [Hw1' H1].
  destruct (enqueue_contents q2 x Hw2) as [Hw2' H2].
  split; [exact Hw1' |]. split; [exact Hw2' |]. split.
  - unfold enqueue.
    destruct (negb (PageQueue.numberOfFrames q1 =? PageQueue.size q1));
      destruct (negb (PageQueue.numberOfFrames q2 =? PageQueue.size q2));
      cbn [PageQueue.numberOfFrames]; exact Hnf.
  - by rewrite H1, H2, Hc, Hsz, Hnf.
Qed.

Section Heap.

Variable backing : Z -> Z.

(** The iteration reads the queue through [dequeue] only: from a state
    with another queue whose [dequeue] returns the same frame, it prints
    the same line and leaves the same state, up to the queue. *)
Lemma step_set_queue rp s q2 a :
  fst (dequeue (queue s)) = fst (dequeue q2) ->
  snd (step backing rp (set_queue s q2) a) = snd (step backing rp s a)
  /\ fst (step backing rp (set_queue s q2) a)
     = set_queue (fst (step backing rp s a))
                 (queue (fst (step backing rp (set_queue s q2) a))).
Proof.
  intros Hd. unfold step, resolve, handle_fault, on_frame_used, tick,
    add_to_tlb, set_queue.
  cbn -[clear_owner memcpy search_tlb get_least_recently_used_element
        dequeue enqueue store load Z.to_nat Z.mul Z.add Z.land Z.lor
        Z.shiftl Z.shiftr Z.ltb Z.eqb Z.leb u8].
  destruct (dequeue (queue s)) as [x1 q1'] eqn:E1.
  destruct (dequeue q2) as [x2 q2'] eqn:E2.
  cbn [fst] in Hd. subst x2.
  repeat case_match; simplify_eq;
    cbn -[clear_owner memcpy search_tlb get_least_recently_used_element
          dequeue enqueue store load Z.to_nat Z.mul Z.add Z.land Z.lor
          Z.shiftl Z.shiftr Z.ltb Z.eqb Z.leb u8]; done.
Qed.

(** The lines printed do not depend on the content that [malloc] left in
    the queue array: the program reads only the slots it has written. *)
Theorem output_independent_of_heap (heap1 heap2 : nat -> Z) rp (input : list Z) :
  trace backing rp (init heap1) input = trace backing rp (init heap2) input.
Proof.
  assert (H : forall s1 s2,
            s2 = set_queue s1 (queue s2) -> queue_sim (queue s1) (queue s2) ->
            trace backing rp s1 input = trace backing rp s2 input).
  { induction input as [|a l IH]; intros s1 s2 Hs Hsim; [reflexivity |].
    cbn [trace].
    destruct (queue_sim_dequeue _ _ Hsim) as [Hd Hsim'].
    destruct (step_set_queue rp s1 (queue s2) a Hd) as [He Hst].
    rewrite <- Hs in He, Hst. rewrite He. f_equal.
    apply IH; [exact Hst |].
    rewrite !step_queue, He.
    assert (Hfree : free_page s2 = free_page s1) by (by rewrite Hs).
    rewrite Hfree.
    destruct (rp =? 0); [|exact Hsim].
    apply queue_sim_enqueue. by destruct (_ && _). }
  apply H; [reflexivity |].
  unfold init. cbn [queue].
  destruct (initQueue_wf heap1 FRAMES) as [Hw1 Hc1]; [unfold FRAMES; lia |].
  destruct (initQueue_wf heap2 FRAMES) as [Hw2 Hc2]; [unfold FRAMES; lia |].
  split; [done |]. split; [done |]. split; [reflexivity |].
  by rewrite Hc1, Hc2.
Qed.

End Heap.

(** * Concrete runs *)

(** C8 as stated fails on the empty input: the two rates are not printed
    as [0.000]. *)
Lemma empty_input_rates_not_zero :
  ~ (let r := final_report (exec sample_backing 0 (init sample_heap) []) in
     format_3f (rep_page_fault_rate r) = Digits "0.000"
     /\ format_3f (rep_tlb_hit_rate r) = Digits "0.000").
Proof. vm_compute. intros [H _]. discriminate H. Qed.

(** [pagetable_one_owner] after the pages 0 and 1 were loaded. *)
Lemma pagetable_one_owner_witness :
  let pt := pagetable (exec sample_backing 0 (init sample_heap) [0; 256]) in
  (0 <= 0 < PAGES /\ 0 <= 1 < PAGES /\ 0 <> 1
   /\ load 0 pt 0 <> -1 /\ load 0 pt 1 <> -1)
  /\ load 0 pt 0 <> load 0 pt 1.
Proof.
  assert (H : let pt := pagetable (exec sample_backing 0 (init sample_heap) [0; 256]) in
              0 <= 0 < PAGES /\ 0 <= 1 < PAGES /\ 0 <> 1
              /\ load 0 pt 0 <> -1 /\ load 0 pt 1 <> -1).
  { vm_compute. repeat split; congruence. }
  split; [exact H |].
  destruct H as (H1 & H2 & H3 & H4 & H5).
  exact (pagetable_one_owner sample_backing sample_heap 0 [0; 256] 0 1
           H1 H2 H3 H4 H5).
Defined.

(** [page_load_round_trip]: page 0 is loaded into frame 0, read again
    through the TLB, and stays while page 1 is loaded into frame 1. *)
Lemma page_load_round_trip_witness :
  let s0 := exec sample_backing 0 (init sample_heap) [] in
  let e := snd (step sample_backing 0 s0 0) in
  let s1 := fst (step sample_backing 0 s0 0) in
  (ev_fault e = true
   /\ Forall (fun e' => ~ loads_into (ev_physical_page e) e')
             (trace sample_backing 0 s1 [1; 256]))
  /\ (forall o, 0 <= o < PAGE_SIZE ->
        load 0 (main_memory (exec sample_backing 0 (init sample_heap)
                                  ([] ++ 0 :: [1; 256])))
             (ev_physical_page e * PAGE_SIZE + o)
        = sample_backing (ev_logical_page e * PAGE_SIZE + o))
  /\ Forall (fun e' => ev_physical_page e' = ev_physical_page e ->
                       ev_value e'
                       = sample_backing (ev_logical_page e * PAGE_SIZE + ev_offset e'))
            (e :: trace sample_backing 0 s1 [1; 256]).
Proof.
  cbn zeta.
  assert (H1 : ev_fault (snd (step sample_backing 0
                 (exec sample_backing 0 (init sample_heap) []) 0)) = true)
    by (vm_compute; reflexivity).
  assert (H2 : Forall (fun e' => ~ loads_into
                 (ev_physical_page (snd (step sample_backing 0
                    (exec sample_backing 0 (init sample_heap) []) 0))) e')
                 (trace sample_backing 0
                    (fst (step sample_backing 0
                       (exec sample_backing 0 (init sample_heap) []) 0))
                    [1; 256])).
  { repeat constructor; unfold loads_into; vm_compute; intros [Ha Hb];
      congruence. }
  split; [split; [exact H1 | exact H2] |].
  exact (page_load_round_trip sample_backing sample_heap 0 [] [1; 256] 0 H1 H2).
Defined.

(** [in_bounds]: after the first 66 lines of [fifo_failing_input] the
    next page fault evicts, and finds the queue full. *)
Lemma in_bounds_witness :
  let input := take 66 fifo_failing_input in
  let s := exec sample_backing 0 (init sample_heap) input in
  (0 = 0 /\ ev_victim (snd (step sample_backing 0 s (65 * PAGE_SIZE))) <> None)
  /\ PageQueue.size (queue s) = FRAMES
  /\ 0 <= fst (dequeue (queue s)) < FRAMES.
Proof.
  cbn zeta.
  assert (H : ev_victim (snd (step sample_backing 0
                (exec sample_backing 0 (init sample_heap)
                   (take 66 fifo_failing_input)) (65 * PAGE_SIZE))) <> None)
    by (vm_compute; congruence).
  split; [split; [reflexivity | exact H] |].
  exact (proj2 (in_bounds sample_backing sample_heap 0
                  (take 66 fifo_failing_input))
               (65 * PAGE_SIZE) eq_refl H).
Defined.

(** [lru_scan_start_value] on time stamps below the start value. *)
Lemma lru_scan_start_value_witness :
  let u := 5 :: 3 :: 3 :: replicate 61 7 in
  (0 <= 1 < FRAMES /\ load 0 u 1 < LRU_START)
  /\ least_recent u (get_least_recently_used_element u).
Proof.
  cbn zeta.
  assert (H : 0 <= 1 < FRAMES /\ load 0 (5 :: 3 :: 3 :: replicate 61 7) 1 < LRU_START)
    by (vm_compute; repeat split; congruence).
  split; [exact H |].
  exact (proj1 (lru_scan_start_value sample_backing sample_heap)
               (5 :: 3 :: 3 :: replicate 61 7) 1 (proj1 H) (proj2 H)).
Defined.

(** [values_are_signed_chars] on the sample backing store. *)
Lemma values_are_signed_chars_witness :
  (forall i, signed_char (sample_backing i))
  /\ Forall signed_char
            (main_memory (exec sample_backing 0 (init sample_heap) [0; 300]))
  /\ Forall (fun e => signed_char (ev_value e))
            (trace sample_backing 0 (init sample_heap) [0; 300]).
Proof.
  assert (H : forall i, signed_char (sample_backing i)).
  { intros i. unfold signed_char, sample_backing.
    pose proof (Z.mod_pos_bound (i * 37 + 11) 256). lia. }
  split; [exact H |].
  exact (values_are_signed_chars sample_backing sample_heap 0 [0; 300] H).
Defined.

(** [nonzero_policy_is_lru] for the flag 7. *)
Lemma nonzero_policy_is_lru_witness :
  7 <> 0
  /\ trace sample_backing 7 (init sample_heap) [0; 256; 0]
     = trace sample_backing 1 (init sample_heap) [0; 256; 0]
  /\ exec sample_backing 7 (init sample_heap) [0; 256; 0]
     = exec sample_backing 1 (init sample_heap) [0; 256; 0].
Proof.
  assert (H : 7 <> 0) by lia.
  split; [exact H |].
  exact (nonzero_policy_is_lru sample_backing sample_heap 7 [0; 256; 0] H).
Defined.

(** [tlb_hit_frame]: address 1 hits the entry that address 0 inserted. *)
Lemma tlb_hit_frame_witness :
  let s := exec sample_backing 0 (init sample_heap) [0] in
  let e := snd (step sample_backing 0 s 1) in
  ev_tlb_hit e = true
  /\ (load 0 (pagetable s) (ev_logical_page e) = ev_physical_page e
      \/ load 0 (pagetable s) (ev_logical_page e) = -1)
  /\ (load 0 (pagetable s) (ev_logical_page e) <> -1 ->
      ev_value e = sample_backing (1 mod LOGICAL_MEMORY_SIZE)).
Proof.
  cbn zeta.
  assert (H : ev_tlb_hit (snd (step sample_backing 0
                (exec sample_backing 0 (init sample_heap) [0]) 1)) = true)
    by (vm_compute; reflexivity).
  split; [exact H |].
  exact (tlb_hit_frame sample_backing sample_heap 0 [0] 1 H).
Defined.

(** [tlb_entries_distinct] on the two entries of a run over two pages. *)
Lemma tlb_entries_distinct_witness :
  let s := exec sample_backing 0 (init sample_heap) [0; 256] in
  (0 <= 0 /\ tlbindex s - TLB_SIZE <= 0 /\ 0 < 1 /\ 1 < tlbindex s)
  /\ logical (load {| logical := 0; physical := 0 |} (tlb s) (Z.rem 0 TLB_SIZE))
     <> logical (load {| logical := 0; physical := 0 |} (tlb s) (Z.rem 1 TLB_SIZE)).
Proof.
  cbn zeta.
  assert (H : 0 <= 0
              /\ tlbindex (exec sample_backing 0 (init sample_heap) [0; 256])
                 - TLB_SIZE <= 0
              /\ 0 < 1
              /\ 1 < tlbindex (exec sample_backing 0 (init sample_heap) [0; 256])).
  { vm_compute. repeat split; congruence. }
  split; [exact H |].
  destruct H as (H1 & H2 & H3 & H4).
  exact (tlb_entries_distinct sample_backing sample_heap 0 [0; 256] 0 1
           H1 H2 H3 H4).
Defined.

(** [lru_stamps_are_last_uses]: frame 0 is used by the lines 1 and 3. *)
Lemma lru_stamps_are_last_uses_witness :
  (1 <> 0 /\ 0 <= 0 < FRAMES)
  /\ load 0 (recentUsages (exec sample_backing 1 (init sample_heap) [0; 256; 0])) 0
     = last_use (trace sample_backing 1 (init sample_heap) [0; 256; 0]) 0
  /\ -1 <= last_use (trace sample_backing 1 (init sample_heap) [0; 256; 0]) 0
     <= Z.of_nat (length [0; 256; 0]).
Proof.
  assert (H : 1 <> 0 /\ 0 <= 0 < FRAMES) by (unfold FRAMES; lia).
  split; [exact H |].
  exact (lru_stamps_are_last_uses sample_backing sample_heap 1 [0; 256; 0] 0
           (proj1 H) (proj2 H)).
Defined.

(** [lru_victim_is_least_recently_used]: after the pages 0 to 63, page 64
    evicts frame 0. *)
Lemma lru_victim_is_least_recently_used_witness :
  let input := (fun k => k * PAGE_SIZE) <$> seqZ 0 64 in
  (1 <> 0 /\ Z.of_nat (length input) < LRU_START
   /\ ev_victim (snd (step sample_backing 1
                        (exec sample_backing 1 (init sample_heap) input)
                        (64 * PAGE_SIZE))) = Some 0)
  /\ 0 <= 0 < FRAMES
  /\ forall f, 0 <= f < FRAMES ->
       last_use (trace sample_backing 1 (init sample_heap) input) 0
       <= last_use (trace sample_backing 1 (init sample_heap) input) f.
Proof.
  cbn zeta.
  assert (H1 : 1 <> 0) by lia.
  assert (H2 : Z.of_nat (length ((fun k => k * PAGE_SIZE) <$> seqZ 0 64))
               < LRU_START) by (vm_compute; reflexivity).
  assert (H3 : ev_victim (snd (step sample_backing 1
                 (exec sample_backing 1 (init sample_heap)
                    ((fun k => k * PAGE_SIZE) <$> seqZ 0 64))
                 (64 * PAGE_SIZE))) = Some 0) by (vm_compute; reflexivity).
  split; [split; [exact H1 | split; [exact H2 | exact H3]] |].
  exact (lru_victim_is_least_recently_used sample_backing sample_heap 1
           ((fun k => k * PAGE_SIZE) <$> seqZ 0 64) (64 * PAGE_SIZE) 0 H1 H2 H3).
Defined.

(** [enqueue_appends] on the empty queue of capacity 2. *)
Lemma enqueue_appends_witness :
  let q := initQueue sample_heap 2 in
  queue_wf q
  /\ queue_wf (enqueue q 5)
  /\ PageQueue.numberOfFrames (enqueue q 5) = PageQueue.numberOfFrames q
  /\ queue_contents (enqueue q 5)
     = (if PageQueue.size q =? PageQueue.numberOfFrames q then queue_contents q
        else queue_contents q ++ [5])
  /\ Z.of_nat (length (queue_contents (enqueue q 5)))
     <= PageQueue.numberOfFrames q.
Proof.
  cbn zeta.
  assert (H : queue_wf (initQueue sample_heap 2))
    by (apply initQueue_wf; lia).
  split; [exact H |].
  exact (enqueue_appends (initQueue sample_heap 2) 5 H).
Defined.

(** [dequeue_takes_oldest] on a queue that holds one entry. *)
Lemma dequeue_takes_oldest_witness :
  let q := enqueue (initQueue sample_heap 2) 5 in
  queue_wf q
  /\ queue_wf (snd (dequeue q))
  /\ PageQueue.numberOfFrames (snd (dequeue q)) = PageQueue.numberOfFrames q
  /\ match queue_contents q with
     | [] => dequeue q = (-1, q)
     | x :: rest =>
         fst (dequeue q) = x /\ queue_contents (snd (dequeue q)) = rest
     end.
Proof.
  cbn zeta.
  assert (H : queue_wf (enqueue (initQueue sample_heap 2) 5)).
  { apply enqueue_contents, initQueue_wf. lia. }
  split; [exact H |].
  exact (dequeue_takes_oldest (enqueue (initQueue sample_heap 2) 5) H).
Defined.

(** [search_after_aging]: page 1 is inserted, then the pages 2 to 17. *)
Lemma search_after_aging_witness :
  let hist := [(1, 1)] in
  let more := (fun k => (k, k)) <$> seqZ 2 16 in
  ((Z.to_nat TLB_SIZE <= length more)%nat
   /\ Forall (fun e => u8 (fst e) <> u8 1) more)
  /\ search_tlb (fst (tlb_after (hist ++ more))) (snd (tlb_after (hist ++ more))) 1
     = -1.
Proof.
  cbn zeta.
  assert (H1 : (Z.to_nat TLB_SIZE <= length ((fun k => (k, k)) <$> seqZ 2 16))%nat)
    by (vm_compute; lia).
  assert (H2 : Forall (fun e : Z * Z => u8 (fst e) <> u8 1)
                      ((fun k => (k, k)) <$> seqZ 2 16)).
  { apply Forall_fmap, Forall_forall. intros k Hk. cbn [fst compose].
    apply elem_of_seqZ in Hk. rewrite !u8_small by lia. lia. }
  split; [split; [exact H1 | exact H2] |].
  exact (search_after_aging [(1, 1)] ((fun k => (k, k)) <$> seqZ 2 16) 1 H1 H2).
Defined.

(** [unallocated_frames_are_zero]: after one page fault, frame 1 is
    untouched. *)
Lemma unallocated_frames_are_zero_witness :
  (free_page (exec sample_backing 0 (init sample_heap) [0]) * PAGE_SIZE <= 256
   < PHYSICAL_MEMORY_SIZE)
  /\ load 0 (main_memory (exec sample_backing 0 (init sample_heap) [0])) 256 = 0.
Proof.
  assert (H : free_page (exec sample_backing 0 (init sample_heap) [0]) * PAGE_SIZE
              <= 256 < PHYSICAL_MEMORY_SIZE).
  { vm_compute. split; congruence. }
  split; [exact H |].
  exact (unallocated_frames_are_zero sample_backing sample_heap 0 [0] 256 H).
Defined.

(** [fifo_cyclic_without_early_hit] on the pages 0 to 65: no hit, two
    evictions. *)
Lemma fifo_cyclic_without_early_hit_witness :
  let input := (fun k => k * PAGE_SIZE) <$> seqZ 0 66 in
  let t := trace sample_backing 0 (init sample_heap) input in
  Forall is_fault (take (Z.to_nat FRAMES) t)
  /\ ev_physical_page <$> filter is_fault t
     = (fun i => i mod FRAMES) <$> seqZ 0 (Z.of_nat (length (filter is_fault t))).
Proof.
  cbn zeta.
  assert (H : Forall is_fault
                (take (Z.to_nat FRAMES)
                   (trace sample_backing 0 (init sample_heap)
                      ((fun k => k * PAGE_SIZE) <$> seqZ 0 66)))).
  { apply Forall_forall. intros e He. unfold is_fault.
    apply (Forall_forall (fun e => ev_fault e = true)
             (take (Z.to_nat FRAMES)
                (trace sample_backing 0 (init sample_heap)
                   ((fun k => k * PAGE_SIZE) <$> seqZ 0 66)))); [|exact He].
    apply Forall_fold_right. vm_compute. repeat split. }
  split; [exact H |].
  exact (fifo_cyclic_without_early_hit sample_backing sample_heap
           ((fun k => k * PAGE_SIZE) <$> seqZ 0 66) H).
Defined.
